(** * Snake-Game/snake.py: the game-state update loop, embedded and verified

    The Python program keeps its whole state in module-level variables and
    advances it once per iteration of [while True].  The embedding below
    follows the script top to bottom:

    - pixel positions are pairs of unbounded integers ([Z * Z]), as Python
      tuples of ints;
    - the module-level variables form the record [State];
    - the [random] module is an oracle: an infinite sequence of raw integers
      from which [randint] and [random.random] take the next value;
    - [while True] in [random_food_position] is bounded by a fuel argument,
      and a run that exhausts it yields [Diverges];
    - [FPS] is a rational number (the script stores 7, 10 and adds 0.5, all
      of them exact in binary floating point).

    Rendering and sound do not feed back into the state and are left out
    of [State]; the sixty generator draws of the particle burst are kept in
    the tick because they shift the generator.  The particles themselves,
    the high-score file and the radius of a drawn segment are modelled on
    their own, next to the state machine. *)

From Stdlib Require Import ZArith List Finite Bool Lia QArith String Ascii.
Import ListNotations.
Open Scope Z_scope.

(** ** Configuration *)

Definition WIDTH : Z := 800.
Definition HEIGHT : Z := 600.
Definition CELL_SIZE : Z := 20.
Definition DEAD_ZONE : Z := 150.
Definition joy_center_x : Z := 512.
Definition joy_center_y : Z := 512.

(** ** Positions and list membership *)

Definition Pos : Type := (Z * Z)%type.

(** Python [==] on tuples of two ints. *)
Definition pos_eqb (p q : Pos) : bool :=
  (fst p =? fst q) && (snd p =? snd q).

(** Python [p in l] for a list of tuples. *)
Definition mem (p : Pos) (l : list Pos) : bool := existsb (pos_eqb p) l.

(** ** The random generator and the result monad *)

(** The generator is the sequence of raw values it will still produce. *)
Definition Rng : Type := nat -> Z.

Definition advance (g : Rng) : Rng := fun n => g (S n).

(** Outcome of a computation that draws random numbers: a value with the
    generator left over, a loop that did not finish within its fuel, or an
    uncaught [IndexError]. *)
Inductive Result (A : Type) : Type :=
| Ok (a : A) (g : Rng)
| Diverges
| IndexError.

Arguments Ok {A} a g.
Arguments Diverges {A}.
Arguments IndexError {A}.

Definition M (A : Type) : Type := Rng -> Result A.

Definition ret {A} (a : A) : M A := fun g => Ok a g.

Definition bind {A B} (m : M A) (k : A -> M B) : M B :=
  fun g =>
    match m g with
    | Ok a g' => k a g'
    | Diverges => Diverges
    | IndexError => IndexError
    end.

Notation "x <- m ;; k" := (bind m (fun x => k))
  (at level 61, m at next level, right associativity).

Definition raise_IndexError {A} : M A := fun _ => IndexError.

(** [random.randint(a, b)]: an integer in [a..b]. *)
Definition randint (a b : Z) : M Z :=
  fun g => Ok (a + g O mod (b - a + 1)) (advance g).

(** [random.random()]: the float [k / 2^53] with [0 <= k < 2^53]; the model
    returns the numerator [k]. *)
Definition random_random : M Z :=
  fun g => Ok (g O mod 2 ^ 53) (advance g).

(** [random.random() < 0.1]: the double nearest to 0.1 is
    [3602879701896397 / 2^55], so [k / 2^53 < 0.1] iff
    [4 * k < 3602879701896397]. *)
Definition lt_one_tenth (k : Z) : bool := 4 * k <? 3602879701896397.

(** ** Entity placement *)

(** [random_food_position(snake, obstacles)], lines 81-87. *)
Fixpoint random_food_position (fuel : nat) (snake obstacles : list Pos)
  : M Pos :=
  match fuel with
  | O => fun _ => Diverges
  | S fuel' =>
      x <- randint 0 (WIDTH / CELL_SIZE - 1) ;;
      y <- randint 0 (HEIGHT / CELL_SIZE - 1) ;;
      let pos := (x * CELL_SIZE, y * CELL_SIZE) in
      if negb (mem pos snake) && negb (mem pos obstacles)
      then ret pos
      else random_food_position fuel' snake obstacles
  end.

(** ** Module-level variables *)

Inductive FoodType : Type := normal | power.

Record State : Type := mkState {
  snake : list Pos;
  direction : Pos;
  food_pos : Pos;
  food_type : FoodType;
  score : Z;
  game_over : bool;
  paused : bool;
  show_grid : bool;
  level : Z;
  obstacles : list Pos;
  powerup_active : bool;
  powerup_timer : Z;
  FPS : Q;
  high_score : Z;
  waiting : bool;
  ser : bool  (* [true]: the serial port was opened; [false]: keyboard *)
}.

Definition set_snake v s := mkState v (direction s) (food_pos s) (food_type s)
  (score s) (game_over s) (paused s) (show_grid s) (level s) (obstacles s)
  (powerup_active s) (powerup_timer s) (FPS s) (high_score s) (waiting s) (ser s).
Definition set_direction v s := mkState (snake s) v (food_pos s) (food_type s)
  (score s) (game_over s) (paused s) (show_grid s) (level s) (obstacles s)
  (powerup_active s) (powerup_timer s) (FPS s) (high_score s) (waiting s) (ser s).
Definition set_food_pos v s := mkState (snake s) (direction s) v (food_type s)
  (score s) (game_over s) (paused s) (show_grid s) (level s) (obstacles s)
  (powerup_active s) (powerup_timer s) (FPS s) (high_score s) (waiting s) (ser s).
Definition set_food_type v s := mkState (snake s) (direction s) (food_pos s) v
  (score s) (game_over s) (paused s) (show_grid s) (level s) (obstacles s)
  (powerup_active s) (powerup_timer s) (FPS s) (high_score s) (waiting s) (ser s).
Definition set_score v s := mkState (snake s) (direction s) (food_pos s)
  (food_type s) v (game_over s) (paused s) (show_grid s) (level s) (obstacles s)
  (powerup_active s) (powerup_timer s) (FPS s) (high_score s) (waiting s) (ser s).
Definition set_game_over v s := mkState (snake s) (direction s) (food_pos s)
  (food_type s) (score s) v (paused s) (show_grid s) (level s) (obstacles s)
  (powerup_active s) (powerup_timer s) (FPS s) (high_score s) (waiting s) (ser s).
Definition set_paused v s := mkState (snake s) (direction s) (food_pos s)
  (food_type s) (score s) (game_over s) v (show_grid s) (level s) (obstacles s)
  (powerup_active s) (powerup_timer s) (FPS s) (high_score s) (waiting s) (ser s).
Definition set_show_grid v s := mkState (snake s) (direction s) (food_pos s)
  (food_type s) (score s) (game_over s) (paused s) v (level s) (obstacles s)
  (powerup_active s) (powerup_timer s) (FPS s) (high_score s) (waiting s) (ser s).
Definition set_level v s := mkState (snake s) (direction s) (food_pos s)
  (food_type s) (score s) (game_over s) (paused s) (show_grid s) v (obstacles s)
  (powerup_active s) (powerup_timer s) (FPS s) (high_score s) (waiting s) (ser s).
Definition set_obstacles v s := mkState (snake s) (direction s) (food_pos s)
  (food_type s) (score s) (game_over s) (paused s) (show_grid s) (level s) v
  (powerup_active s) (powerup_timer s) (FPS s) (high_score s) (waiting s) (ser s).
Definition set_powerup_active v s := mkState (snake s) (direction s)
  (food_pos s) (food_type s) (score s) (game_over s) (paused s) (show_grid s)
  (level s) (obstacles s) v (powerup_timer s) (FPS s) (high_score s)
  (waiting s) (ser s).
Definition set_powerup_timer v s := mkState (snake s) (direction s)
  (food_pos s) (food_type s) (score s) (game_over s) (paused s) (show_grid s)
  (level s) (obstacles s) (powerup_active s) v (FPS s) (high_score s)
  (waiting s) (ser s).
Definition set_FPS v s := mkState (snake s) (direction s) (food_pos s)
  (food_type s) (score s) (game_over s) (paused s) (show_grid s) (level s)
  (obstacles s) (powerup_active s) (powerup_timer s) v (high_score s)
  (waiting s) (ser s).
Definition set_high_score v s := mkState (snake s) (direction s) (food_pos s)
  (food_type s) (score s) (game_over s) (paused s) (show_grid s) (level s)
  (obstacles s) (powerup_active s) (powerup_timer s) (FPS s) v (waiting s)
  (ser s).
Definition set_waiting v s := mkState (snake s) (direction s) (food_pos s)
  (food_type s) (score s) (game_over s) (paused s) (show_grid s) (level s)
  (obstacles s) (powerup_active s) (powerup_timer s) (FPS s) (high_score s) v
  (ser s).

(** [save_high_score(score)], lines 65-70 (the file write is not modelled). *)
Definition save_high_score (sc : Z) (s : State) : State :=
  if sc >? high_score s then set_high_score sc s else s.

(** ** Input adapter *)

(** *** Text operations on a decoded serial line

    A decoded line is a sequence of code points below 256 (the device
    protocol is ASCII text).  Among these, [str.isspace] holds for the
    codes 9-13, 28-32, 133 and 160, and the only decimal digits are
    [0]-[9]. *)

Definition is_space (c : ascii) : bool :=
  let n := Z.of_nat (nat_of_ascii c) in
  ((9 <=? n) && (n <=? 13)) || ((28 <=? n) && (n <=? 32))
  || (n =? 133) || (n =? 160).

Fixpoint lstrip (s : string) : string :=
  match s with
  | EmptyString => EmptyString
  | String c rest => if is_space c then lstrip rest else s
  end.

Fixpoint rstrip (s : string) : string :=
  match s with
  | EmptyString => EmptyString
  | String c rest =>
      match rstrip rest with
      | EmptyString => if is_space c then EmptyString else String c EmptyString
      | r => String c r
      end
  end.

(** [str.strip()] *)
Definition strip (s : string) : string := rstrip (lstrip s).

(** [str.split(',')] *)
Fixpoint split_comma (s : string) : list string :=
  match s with
  | EmptyString => [EmptyString]
  | String c rest =>
      if (c =? ",")%char then EmptyString :: split_comma rest
      else match split_comma rest with
           | f :: fs => String c f :: fs
           | [] => [String c EmptyString]
           end
  end.

Definition is_digit (c : ascii) : bool :=
  let n := Z.of_nat (nat_of_ascii c) in (48 <=? n) && (n <=? 57).

Definition digit_val (c : ascii) : Z := Z.of_nat (nat_of_ascii c) - 48.

(** Decimal digits, single underscores allowed between two digits. *)
Fixpoint digits_value (prev_digit : bool) (acc : Z) (s : string) : option Z :=
  match s with
  | EmptyString => if prev_digit then Some acc else None
  | String c rest =>
      if is_digit c then digits_value true (10 * acc + digit_val c) rest
      else if (c =? "_")%char && prev_digit then digits_value false acc rest
      else None
  end.

(** [int(s)] on a [str]: [None] stands for [ValueError].  Surrounding
    whitespace is dropped, one sign is allowed.  (The interpreter's cap on
    the number of digits, where it has one, is not modelled; it turns very
    long digit strings into [ValueError] as well.) *)
Definition py_int (s : string) : option Z :=
  match strip s with
  | String "+" rest => digits_value false 0 rest
  | String "-" rest => option_map Z.opp (digits_value false 0 rest)
  | body => digits_value false 0 body
  end.

(** *** What one loop iteration reads from the outside *)

Inductive Key : Type :=
  K_LEFT | K_RIGHT | K_UP | K_DOWN | K_p | K_r | K_g | K_f | K_SPACE | K_other.

Inductive Event : Type := QUIT | KEYDOWN (k : Key) | OTHER_EVENT.

(** [ser.readline().decode()]: the decoded text, or [UnicodeDecodeError]. *)
Inductive Read : Type := DecodeError | Text (s : string).

Record Env : Type := mkEnv {
  events : list Event;       (* pygame.event.get() *)
  keys : Key -> bool;        (* pygame.key.get_pressed() *)
  serial_read : Read         (* ser.readline().decode() *)
}.

(** The joystick branch once the three fields are integers, lines 121-139. *)
Definition joystick_direction (x y button : Z) (s : State) : Pos * State :=
  let joyX := x - joy_center_x in
  let joyY := y - joy_center_y in
  let s := if button =? 0 then set_paused (negb (paused s)) s else s in
  let dx := if Z.abs joyX >? DEAD_ZONE then (if joyX >? 0 then 1 else -1) else 0 in
  let dy := if Z.abs joyY >? DEAD_ZONE then (if joyY >? 0 then 1 else -1) else 0 in
  let dy := if negb (dx =? 0) then 0 else dy in
  ((dx, dy), s).

(** [get_direction()], lines 113-158: the direction read and the state with
    [paused] possibly flipped. *)
Definition get_direction (env : Env) (s : State) : Pos * State :=
  if ser s then
    match serial_read env with
    | DecodeError => (direction s, s)
    | Text raw =>
        let data := strip raw in
        match data with
        | EmptyString => (direction s, s)
        | _ =>
            let values := split_comma data in
            if (List.length values =? 3)%nat then
              match py_int (nth 0 values EmptyString) with
              | None => (direction s, s)
              | Some x =>
                  match py_int (nth 1 values EmptyString) with
                  | None => (direction s, s)
                  | Some y =>
                      match py_int (nth 2 values EmptyString) with
                      | None => (direction s, s)
                      | Some button => joystick_direction x y button s
                      end
                  end
              end
            else (direction s, s)
        end
    end
  else
    let d :=
      if keys env K_LEFT then (-1, 0)
      else if keys env K_RIGHT then (1, 0)
      else if keys env K_UP then (0, -1)
      else if keys env K_DOWN then (0, 1)
      else direction s in
    let s := if keys env K_p then set_paused (negb (paused s)) s else s in
    (d, s).

(** ** The game state machine *)

(** Line 214: the condition of the anti-reversal filter. *)
Definition accepts (current new_dir : Pos) : bool :=
  negb (pos_eqb (fst new_dir * -1, snd new_dir * -1) current)
  && negb (pos_eqb new_dir (0, 0)).

(** Lines 214-215. *)
Definition update_direction (new_dir : Pos) (s : State) : State :=
  if accepts (direction s) new_dir then set_direction new_dir s else s.

(** Lines 218-219. *)
Definition next_head (head dir : Pos) : Pos :=
  (fst head + fst dir * CELL_SIZE, snd head + snd dir * CELL_SIZE).

(** Lines 222-223. *)
Definition hits_wall (p : Pos) : bool :=
  (fst p <? 0) || (fst p >=? WIDTH) || (snd p <? 0) || (snd p >=? HEIGHT).

(** Line 229. *)
Definition hits_body (s : State) (p : Pos) : bool :=
  negb (powerup_active s) && (mem p (snake s) || mem p (obstacles s)).

(** Lines 244-245: twenty particles, three draws each. *)
Fixpoint spawn_particles (n : nat) : M unit :=
  match n with
  | O => ret tt
  | S n' =>
      _ <- randint (-5) 5 ;;
      _ <- randint (-5) 5 ;;
      _ <- randint 10 20 ;;
      spawn_particles n'
  end.

(** Lines 238-257: the branch taken when the new head is on the food. *)
Definition eat_food (fuel : nat) (s : State) : M State :=
  let s := set_score (score s + 1) s in
  let s := save_high_score (score s) s in
  _ <- spawn_particles 20 ;;
  let s := match food_type s with
           | power => set_FPS 10%Q (set_powerup_timer 105 (set_powerup_active true s))
           | normal => s
           end in
  p <- random_food_position fuel (snake s) (obstacles s) ;;
  let s := set_food_pos p s in
  k <- random_random ;;
  ret (set_food_type (if lt_one_tenth k then power else normal) s).

(** Lines 266-267: [for _ in range(n): obstacles.append(...)]. *)
Fixpoint add_obstacles (n : nat) (fuel : nat) (s : State) : M State :=
  match n with
  | O => ret s
  | S n' =>
      p <- random_food_position fuel (snake s) (obstacles s) ;;
      add_obstacles n' fuel (set_obstacles (obstacles s ++ [p]) s)
  end.

(** Lines 262-267. *)
Definition level_progression (fuel : nat) (s : State) : M State :=
  if score s / 10 + 1 >? level s then
    let s := set_level (score s / 10 + 1) s in
    let s := set_FPS (FPS s + (1 # 2))%Q s in
    add_obstacles (Z.to_nat (level s)) fuel s
  else ret s.

(** Lines 218-267: the body of [if direction != (0, 0)]. *)
Definition move (fuel : nat) (s : State) : M State :=
  match snake s with
  | [] => raise_IndexError
  | head :: _ =>
      let new_head := next_head head (direction s) in
      let s := if hits_wall new_head then set_game_over true s else s in
      let s := if hits_body s new_head then set_game_over true s else s in
      let s := set_snake (new_head :: snake s) s in
      s <- (if pos_eqb new_head (food_pos s) then eat_food fuel s
            else ret (set_snake (removelast (snake s)) s)) ;;
      level_progression fuel s
  end.

(** Lines 270-274. *)
Definition powerup_countdown (s : State) : State :=
  if powerup_active s then
    let s := set_powerup_timer (powerup_timer s - 1) s in
    if powerup_timer s <=? 0
    then set_FPS 7%Q (set_powerup_active false s)
    else s
  else s.

(** Lines 212-274: one tick, the body of [if not game_over]. *)
Definition tick (fuel : nat) (env : Env) (s : State) : M State :=
  let '(new_dir, s) := get_direction env s in
  let s := update_direction new_dir s in
  s <- (if negb (pos_eqb (direction s) (0, 0)) then move fuel s else ret s) ;;
  ret (powerup_countdown s).

(** Lines 329-338: the assignments made when R is held on the game-over
    screen. *)
Definition restart (fuel : nat) (s : State) : M State :=
  let s := set_snake [(WIDTH / 2, HEIGHT / 2)] s in
  let s := set_direction (0, 0) s in
  p <- random_food_position fuel (snake s) [] ;;
  let s := set_food_pos p s in
  let s := set_food_type normal s in
  let s := set_score 0 s in
  let s := set_game_over false s in
  let s := set_level 1 s in
  let s := set_obstacles [] s in
  let s := set_powerup_active false s in
  ret (set_FPS 7%Q s).

(** ** The main loop driver *)

Inductive Outcome : Type :=
| Exited                 (* sys.exit() *)
| Running (s : State).

(** Lines 190-203; [None] when a QUIT event ends the process. *)
Fixpoint handle_events (evs : list Event) (s : State) : option State :=
  match evs with
  | [] => Some s
  | QUIT :: _ => None
  | KEYDOWN k :: rest =>
      let s := match k with
               | K_g => set_show_grid (negb (show_grid s)) s
               | K_p => set_paused (negb (paused s)) s
               | _ => s
               end in
      handle_events rest s
  | OTHER_EVENT :: rest => handle_events rest s
  end.

(** Lines 183-341: one iteration of the main loop. *)
Definition frame (fuel : nat) (env : Env) (s : State) : M Outcome :=
  match handle_events (events env) s with
  | None => ret Exited
  | Some s =>
      if paused s then ret (Running s)
      else
        s <- (if negb (game_over s) then tick fuel env s else ret s) ;;
        s <- (if game_over s && keys env K_r then restart fuel s else ret s) ;;
        ret (Running s)
  end.

Definition is_quit (e : Event) : bool :=
  match e with QUIT => true | _ => false end.

(** Lines 175-181: one iteration of the menu loop. *)
Definition menu_iteration (env : Env) (s : State) : Outcome :=
  if existsb is_quit (events env) then Exited
  else if keys env K_SPACE then Running (set_waiting false s)
  else
    let '(d, s) := get_direction env s in
    if negb (pos_eqb d (0, 0)) then Running (set_waiting false s)
    else Running s.

(** Lines 57-63 and 95-107: the state when the menu loop starts.
    [file_high_score] is the content of the high-score file (0 when the
    file is absent) and [serial_ok] tells whether the port could be
    opened. *)
Definition init (fuel : nat) (file_high_score : Z) (serial_ok : bool)
  : M State :=
  let snake0 := [(WIDTH / 2, HEIGHT / 2)] in
  p <- random_food_position fuel snake0 [] ;;
  ret (mkState snake0 (0, 0) p normal 0 false false true 1 [] false 0 7%Q
               file_high_score true serial_ok).

(** One iteration of whichever loop the program is in. *)
Definition step (fuel : nat) (env : Env) (s : State) : M Outcome :=
  if waiting s then ret (menu_iteration env s) else frame fuel env s.

(** States the program can be in at the top of a loop iteration, for some
    behaviour of the generator and of the outside world. *)
Inductive reachable : State -> Prop :=
| reach_init fuel hs so g s g' :
    init fuel hs so g = Ok s g' -> reachable s
| reach_step fuel env g s s' g' :
    reachable s -> step fuel env s g = Ok (Running s') g' -> reachable s'.

(** ** Vocabulary of the statements *)

(** A position that [random_food_position] accepts. *)
Definition free (snake obstacles : list Pos) (p : Pos) : bool :=
  negb (mem p snake) && negb (mem p obstacles).

(** The position built from two consecutive raw values of the generator. *)
Definition cell_of_raw (a b : Z) : Pos :=
  ((0 + a mod (WIDTH / CELL_SIZE - 1 - 0 + 1)) * CELL_SIZE,
   (0 + b mod (HEIGHT / CELL_SIZE - 1 - 0 + 1)) * CELL_SIZE).

(** The candidate examined by iteration [k] of the sampling loop. *)
Definition draw (g : Rng) (k : nat) : Pos :=
  cell_of_raw (g (2 * k)%nat) (g (S (2 * k))).






(** A generator that keeps producing the centre cell (column 20, row 15). *)
Definition stuck_rng : Rng := fun n => if Nat.even n then 20 else 15.

(** A generator whose first pair of values is [a], [b]. *)
Definition rng_of_pair (a b : Z) : Rng :=
  fun n => match n with O => a | _ => b end.

(** The state after the assignments of lines 238-251. *)
Definition after_bite (s : State) : State :=
  let s := save_high_score (score s + 1) (set_score (score s + 1) s) in
  match food_type s with
  | power => set_FPS 10%Q (set_powerup_timer 105 (set_powerup_active true s))
  | normal => s
  end.

(** The state once the tick has polled the input and filtered the
    direction (lines 212-215). *)
Definition polled (env : Env) (s : State) : State :=
  update_direction (fst (get_direction env s)) (snd (get_direction env s)).

(** The new head computed by the tick that starts in [s], if it moves. *)
Definition tick_new_head (env : Env) (s : State) : option Pos :=
  if pos_eqb (direction (polled env s)) (0, 0) then None
  else match snake s with
       | [] => None
       | h :: _ => Some (next_head h (direction (polled env s)))
       end.

(** The tick that starts in [s] puts the new head on the food. *)
Definition eats_food (env : Env) (s : State) : bool :=
  match tick_new_head env s with
  | Some p => pos_eqb p (food_pos s)
  | None => false
  end.

(** The tick that starts in [s] hits a wall, or the body or an obstacle
    while the power-up is inactive. *)
Definition fatal_collision (env : Env) (s : State) : bool :=
  match tick_new_head env s with
  | Some p => hits_wall p || hits_body s p
  | None => false
  end.

(** The opposite of a direction vector. *)
Definition negation (d : Pos) : Pos := (- fst d, - snd d).

(** The directions the filter goes through when it is fed a sequence of
    candidates, the starting direction first. *)
Fixpoint direction_trace (d : Pos) (candidates : list Pos) : list Pos :=
  match candidates with
  | [] => [d]
  | c :: rest => d :: direction_trace (if accepts d c then c else d) rest
  end.

(** No direction of the list is followed by its own negation, unless it is
    the zero vector. *)
Fixpoint no_reversal (l : list Pos) : Prop :=
  match l with
  | a :: (b :: _) as rest => (a <> (0, 0) -> b <> negation a) /\ no_reversal rest
  | _ => True
  end.

(** Sum of the integers [2..n]. *)
Definition sum_levels (n : Z) : Z :=
  fold_right Z.add 0 (map Z.of_nat (seq 2 (Z.to_nat n - 1))).

(** Level-ups counted along an execution: a loop iteration that raises the
    level adds one, an iteration that brings the level down (a restart)
    starts the count again. *)
Definition count_after (n : nat) (s s' : State) : nat :=
  if level s <? level s' then S n
  else if level s' <? level s then O
  else n.

Inductive after_level_ups : nat -> State -> Prop :=
| ups_init fuel hs so g s g' :
    init fuel hs so g = Ok s g' -> after_level_ups 0 s
| ups_step n fuel env g s s' g' :
    after_level_ups n s -> step fuel env s g = Ok (Running s') g' ->
    after_level_ups (count_after n s s') s'.

(** Loop iterations run in sequence, each with its own inputs and generator
    behaviour; the level-ups are counted on the way. *)
Fixpoint run_counting (fuel : nat) (inputs : list (Env * Rng)) (n : nat)
  (s : State) : option (nat * State) :=
  match inputs with
  | [] => Some (n, s)
  | (env, g) :: rest =>
      match step fuel env s g with
      | Ok (Running s') _ => run_counting fuel rest (count_after n s s') s'
      | _ => None
      end
  end.

Definition boot (fuel : nat) (hs : Z) (so : bool) (g : Rng)
  (inputs : list (Env * Rng)) : option (nat * State) :=
  match init fuel hs so g with
  | Ok s _ => run_counting fuel inputs 0 s
  | _ => None
  end.

(** What the game-state invariant says. *)
Definition Inv (s : State) : Prop :=
  0 <= score s /\
  level s = score s / 10 + 1 /\
  Z.of_nat (List.length (obstacles s)) = sum_levels (level s) /\
  snake s <> [].


(** ** Concrete executions *)

Definition key_eqb (a b : Key) : bool :=
  match a, b with
  | K_LEFT, K_LEFT | K_RIGHT, K_RIGHT | K_UP, K_UP | K_DOWN, K_DOWN
  | K_p, K_p | K_r, K_r | K_g, K_g | K_f, K_f | K_SPACE, K_SPACE
  | K_other, K_other => true
  | _, _ => false
  end.

(** Keyboard play: no event, one key held, nothing on the serial line. *)
Definition holding (k : Key) : Env := mkEnv [] (key_eqb k) DecodeError.

Definition zero_rng : Rng := fun _ => 0.

(** A generator whose values after the sixty particle draws are [l]. *)
Definition rng_after_particles (l : list Z) : Rng :=
  fun n => nth (n - 60) l 0.

(** Raw values that make [random.random()] 0.5 and 0.0. *)
Definition normal_roll : Z := 2 ^ 52.
Definition power_roll : Z := 0.

(** Start, leave the menu, hold Right for nineteen ticks. *)
Definition wall_inputs : list (Env * Rng) :=
  (holding K_SPACE, zero_rng) :: repeat (holding K_RIGHT, zero_rng) 19.

Definition wall_before : State :=
  mkState [(780, 300)] (1, 0) (0, 0) normal 0 false false true 1 [] false 0 7
          0 false false.

Definition wall_after : State :=
  mkState [(800, 300)] (1, 0) (0, 0) normal 0 true false true 1 [] false 0 7
          0 false false.

(** The first tick of a run whose food lies one cell to the right. *)
Definition bite_before : State :=
  mkState [(400, 300)] (0, 0) (420, 300) normal 0 false false true 1 []
          false 0 7 0 false false.

Definition bite_after : State :=
  mkState [(420, 300); (400, 300)] (1, 0) (440, 300) normal 1 false false
          true 1 [] false 0 7 1 false false.

(** Eat three normal orbs and a power orb in a row, then turn down and
    left. *)
Definition power_inputs : list (Env * Rng) :=
  [ (holding K_SPACE, zero_rng);
    (holding K_RIGHT, rng_after_particles [22; 15; normal_roll]);
    (holding K_RIGHT, rng_after_particles [23; 15; normal_roll]);
    (holding K_RIGHT, rng_after_particles [24; 15; power_roll]);
    (holding K_RIGHT, rng_after_particles [0; 0; normal_roll]);
    (holding K_DOWN, zero_rng);
    (holding K_LEFT, zero_rng) ].

Definition overlap_before : State :=
  mkState [(460, 320); (480, 320); (480, 300); (460, 300); (440, 300)]
          (-1, 0) (0, 0) normal 4 false false true 1 [] true 102 10 4 false
          false.

Definition overlap_after : State :=
  mkState [(460, 300); (460, 320); (480, 320); (480, 300); (460, 300)]
          (0, -1) (0, 0) normal 4 false false true 1 [] true 101 10 4 false
          false.

(** Eat ten orbs in a row; the tenth brings the first level-up. *)
Definition level_inputs : list (Env * Rng) :=
  (holding K_SPACE, zero_rng) ::
  map (fun i => (holding K_RIGHT,
                 rng_after_particles
                   [22 + Z.of_nat i; 15; normal_roll; 0; 0; 1; 0]))
      (seq 0 10).

Definition level_two : State :=
  mkState [(600, 300); (580, 300); (560, 300); (540, 300); (520, 300);
           (500, 300); (480, 300); (460, 300); (440, 300); (420, 300);
           (400, 300)]
          (1, 0) (620, 300) normal 10 false false true 2 [(0, 0); (20, 0)]
          false 0 (15 # 2) 10 false false.

(** The line terminator sent by the device. *)
Definition LF : string := String (ascii_of_nat 10) EmptyString.

(** A serial read of the given line, no key held, no event. *)
Definition frame_env (line : string) : Env :=
  mkEnv [] (fun _ => false) (Text (line ++ LF)).


Definition joystick_state : State :=
  mkState [(400, 300)] (1, 0) (0, 0) normal 0 false false true 1 [] false 0 7
          0 false true.

(** Level 3 with the boosted rate and one tick of power-up left. *)
Definition expiring : State :=
  mkState [(200, 200); (180, 200)] (1, 0) (0, 0) normal 21 false false true 3
          [(0, 0); (20, 0); (40, 0); (60, 0); (80, 0)] true 1 (21 # 2) 21
          false false.

(** ** Vocabulary of the run invariants *)

(** Inside the window. *)
Definition on_board (p : Pos) : Prop :=
  0 <= fst p < WIDTH /\ 0 <= snd p < HEIGHT.

(** On the cell grid. *)
Definition aligned (p : Pos) : Prop :=
  fst p mod CELL_SIZE = 0 /\ snd p mod CELL_SIZE = 0.

(** One of the four unit vectors, or no movement. *)
Definition axis_direction (d : Pos) : Prop :=
  d = (0, 0) \/ d = (1, 0) \/ d = (-1, 0) \/ d = (0, 1) \/ d = (0, -1).

(** [ps] were placed one after the other by [random_food_position], each
    clear of the snake and of the obstacles present at that moment. *)
Fixpoint placed (sn obs ps : list Pos) : Prop :=
  match ps with
  | [] => True
  | p :: rest =>
      free sn obs p = true /\ on_board p /\ aligned p /\
      placed sn (obs ++ [p]) rest
  end.

(** Two cells that share a side. *)
Definition adjacent (a b : Pos) : Prop :=
  Z.abs (fst a - fst b) + Z.abs (snd a - snd b) = CELL_SIZE.

(** Every cell of the list shares a side with the next one. *)
Fixpoint connected (l : list Pos) : Prop :=
  match l with
  | a :: (b :: _) as rest => adjacent a b /\ connected rest
  | _ => True
  end.

(** No position is in both lists. *)
Definition disjoint (l1 l2 : list Pos) : Prop :=
  forall p, In p l1 -> ~ In p l2.


(** The state in which the menu loop starts when the first food is drawn
    in the top-left corner. *)
Definition menu_state : State :=
  mkState [(400, 300)] (0, 0) (0, 0) normal 0 false false true 1 [] false 0 7
          0 true false.

(** ** The high-score file and the text of a frame *)

Definition digit_char (d : Z) : ascii := ascii_of_nat (Z.to_nat (48 + d)).

(** The decimal digits of [n] put in front of [acc], least significant
    digit first into the accumulator. *)
Fixpoint to_digits (fuel : nat) (n : Z) (acc : string) : string :=
  match fuel with
  | O => acc
  | S fuel' =>
      let acc' := String (digit_char (n mod 10)) acc in
      if n / 10 =? 0 then acc' else to_digits fuel' (n / 10) acc'
  end.

(** [str(n)] on an int: a minus sign for negative numbers, then the decimal
    digits without leading zero. *)
Definition py_str (n : Z) : string :=
  if n <? 0
  then String "-" (to_digits (S (Z.to_nat (Z.log2 (- n)))) (- n) EmptyString)
  else to_digits (S (Z.to_nat (Z.log2 n))) n EmptyString.







(** ** Particles and drawing *)

(** A particle [[[x, y], [vx, vy], life]]. *)
Definition Particle : Type := (Pos * Pos * Z)%type.

Definition life (p : Particle) : Z := snd p.

Definition no_particle : Particle := ((0, 0), (0, 0), 0).

(** Python [==] on two particles (nested lists of ints). *)
Definition particle_eqb (p q : Particle) : bool :=
  pos_eqb (fst (fst p)) (fst (fst q)) && pos_eqb (snd (fst p)) (snd (fst q))
  && (snd p =? snd q).

(** Lines 310-312: the particle moves by its velocity and loses one unit of
    life. *)
Definition age (p : Particle) : Particle :=
  let '(pos, vel, l) := p in
  ((fst pos + fst vel, snd pos + snd vel), vel, l - 1).

(** Lines 243-245 with their result: the twenty particles appended at the
    centre of the eaten food, drawn as [spawn_particles] draws. *)
Fixpoint spawn_particle_list (n : nat) (centre : Pos)
  (particles : list Particle) : M (list Particle) :=
  match n with
  | O => ret particles
  | S n' =>
      vx <- randint (-5) 5 ;;
      vy <- randint (-5) 5 ;;
      l <- randint 10 20 ;;
      spawn_particle_list n' centre (particles ++ [(centre, (vx, vy), l)])
  end.

(** The particle objects: what each reference points to.  The list
    [particles] and its copy [particles[:]] hold references, so that a
    particle changed through the copy is changed in the list. *)
Definition Store : Type := nat -> Particle.

Definition store_set (i : nat) (p : Particle) (st : Store) : Store :=
  fun j => if (j =? i)%nat then p else st j.

(** [particles.remove(p)] where [p] is the object of reference [i]: the
    first element that is [p] or equals [p] is dropped; [None] stands for
    the [ValueError] raised when there is none. *)
Fixpoint list_remove (st : Store) (i : nat) (live : list nat)
  : option (list nat) :=
  match live with
  | [] => None
  | r :: rest =>
      if (r =? i)%nat || particle_eqb (st r) (st i) then Some rest
      else option_map (cons r) (list_remove st i rest)
  end.

(** Lines 308-314: the loop over the copy. *)
Fixpoint particle_loop (copy : list nat) (st : Store) (live : list nat)
  : option (Store * list nat) :=
  match copy with
  | [] => Some (st, live)
  | i :: rest =>
      let st := store_set i (age (st i)) st in
      if life (st i) <=? 0 then
        match list_remove st i live with
        | Some live' => particle_loop rest st live'
        | None => None
        end
      else particle_loop rest st live
  end.

(** The particle list after the loop of lines 308-314. *)
Definition update_particles (particles : list Particle)
  : option (list Particle) :=
  let refs := seq 0 (List.length particles) in
  match particle_loop refs (fun j => nth j particles no_particle) refs with
  | Some (st, live) => Some (map st live)
  | None => None
  end.

(** [k] rendering passes in a row. *)
Fixpoint render_passes (k : nat) (particles : list Particle)
  : option (list Particle) :=
  match k with
  | O => Some particles
  | S k' =>
      match update_particles particles with
      | Some particles' => render_passes k' particles'
      | None => None
      end
  end.

(** Line 290: the radius of segment [i] of a snake of [n] cells. *)
Definition segment_radius (i n : Z) : Z := CELL_SIZE / 2 - (i / n * 2).

(** ** The embedding on concrete inputs *)

Example strip_line :
  strip (" 512,0,1 " ++ String (ascii_of_nat 13) LF) = "512,0,1"%string.
Proof. reflexivity. Qed.

Example split_three :
  split_comma "512,0,1" = ["512"; "0"; "1"]%string.
Proof. reflexivity. Qed.

Example split_trailing_comma :
  split_comma "512,0," = ["512"; "0"; ""]%string.
Proof. reflexivity. Qed.

Example py_int_values :
  py_int "-12" = Some (-12) /\ py_int " +7 " = Some 7 /\
  py_int "1_000" = Some 1000 /\ py_int "007" = Some 7.
Proof. repeat split; reflexivity. Qed.

Example py_int_errors :
  py_int "" = None /\ py_int "12a" = None /\ py_int "1__0" = None /\
  py_int "_1" = None /\ py_int "1_" = None /\ py_int "+-1" = None /\
  py_int "1 2" = None /\ py_int "1.5" = None.
Proof. repeat split; reflexivity. Qed.

Example joystick_right :
  get_direction (frame_env "1023,512,1") joystick_state
    = ((1, 0), joystick_state).
Proof. reflexivity. Qed.

Example joystick_up_inside_dead_zone_x :
  get_direction (frame_env "600,0,1") joystick_state
    = ((0, -1), joystick_state).
Proof. reflexivity. Qed.

Example joystick_diagonal_is_horizontal :
  get_direction (frame_env "0,1023,1") joystick_state
    = ((-1, 0), joystick_state).
Proof. reflexivity. Qed.

Example joystick_button_toggles_pause :
  get_direction (frame_env "512,512,0") joystick_state
    = ((0, 0), set_paused true joystick_state).
Proof. reflexivity. Qed.

Example keyboard_keeps_direction_without_key :
  fst (get_direction (holding K_other) wall_before) = (1, 0).
Proof. reflexivity. Qed.

Example placement_skips_occupied_cells :
  exists g', random_food_position 3 [(400, 300)] [(0, 0)]
               (fun n => nth n [20; 15; 0; 0; 39; 29] 0) = Ok (780, 580) g'.
Proof. eexists. vm_compute. reflexivity. Qed.

Example first_bite :
  exists g', tick 1 (holding K_RIGHT) bite_before
               (rng_after_particles [22; 15; normal_roll]) = Ok bite_after g'.
Proof. eexists. vm_compute. reflexivity. Qed.

Example power_orb_is_rolled :
  lt_one_tenth power_roll = true /\ lt_one_tenth normal_roll = false /\
  lt_one_tenth 900719925474099 = true /\
  lt_one_tenth 900719925474100 = false.
Proof. repeat split; reflexivity. Qed.

(** ** Facts about positions and placement *)

Lemma pos_eqb_eq (p q : Pos) : pos_eqb p q = true <-> p = q.
Proof.
  destruct p as [px py], q as [qx qy]; unfold pos_eqb; simpl.
  rewrite andb_true_iff, !Z.eqb_eq.
  split; [intros [-> ->]; reflexivity | intros E; inversion E; auto].
Qed.

Lemma pos_eqb_refl (p : Pos) : pos_eqb p p = true.
Proof. apply pos_eqb_eq; reflexivity. Qed.

Lemma pos_eqb_neq (p q : Pos) : pos_eqb p q = false <-> p <> q.
Proof.
  rewrite <- pos_eqb_eq. destruct (pos_eqb p q); split; congruence.
Qed.

Lemma mem_In (p : Pos) (l : list Pos) : mem p l = true <-> In p l.
Proof.
  unfold mem. rewrite existsb_exists. split.
  - intros (q & Hq & E). apply pos_eqb_eq in E. subst; assumption.
  - intros H. exists p. split; [assumption | apply pos_eqb_refl].
Qed.

Lemma mem_not_In (p : Pos) (l : list Pos) : mem p l = false <-> ~ In p l.
Proof.
  rewrite <- mem_In. destruct (mem p l); split; congruence.
Qed.

Lemma free_spec snake obstacles p :
  free snake obstacles p = true <-> ~ In p snake /\ ~ In p obstacles.
Proof.
  unfold free. rewrite andb_true_iff, !negb_true_iff, !mem_not_In. tauto.
Qed.

Lemma random_food_position_S fuel snake obstacles g :
  random_food_position (S fuel) snake obstacles g =
  if free snake obstacles (draw g 0)
  then Ok (draw g 0) (advance (advance g))
  else random_food_position fuel snake obstacles (advance (advance g)).
Proof.
  cbn [random_food_position]. unfold bind, randint.
  change (negb
            (mem ((0 + g 0%nat mod (WIDTH / CELL_SIZE - 1 - 0 + 1)) * CELL_SIZE,
                  (0 + advance g 0%nat mod (HEIGHT / CELL_SIZE - 1 - 0 + 1)) * CELL_SIZE)
               snake) &&
          negb
            (mem ((0 + g 0%nat mod (WIDTH / CELL_SIZE - 1 - 0 + 1)) * CELL_SIZE,
                  (0 + advance g 0%nat mod (HEIGHT / CELL_SIZE - 1 - 0 + 1)) * CELL_SIZE)
               obstacles))
    with (free snake obstacles (draw g 0)).
  destruct (free snake obstacles (draw g 0)); reflexivity.
Qed.

Lemma draw_advance g k : draw (advance (advance g)) k = draw g (S k).
Proof.
  unfold draw, advance.
  replace (2 * S k)%nat with (S (S (2 * k))) by lia. reflexivity.
Qed.

Lemma cell_of_raw_on_board a b :
  let p := cell_of_raw a b in
  0 <= fst p < WIDTH /\ 0 <= snd p < HEIGHT /\
  fst p mod CELL_SIZE = 0 /\ snd p mod CELL_SIZE = 0.
Proof.
  unfold cell_of_raw, WIDTH, HEIGHT, CELL_SIZE; simpl.
  change (800 / 20 - 1 - 0 + 1) with 40.
  change (600 / 20 - 1 - 0 + 1) with 30.
  pose proof (Z.mod_pos_bound a 40 ltac:(lia)).
  pose proof (Z.mod_pos_bound b 30 ltac:(lia)).
  rewrite !Z.mod_mul by lia. lia.
Qed.


Lemma random_food_position_Ok fuel snake obstacles :
  forall g p g',
    random_food_position fuel snake obstacles g = Ok p g' ->
    free snake obstacles p = true /\ exists k, (k < fuel)%nat /\ p = draw g k.
Proof.
  induction fuel as [|fuel IH]; intros g p g' H; [discriminate|].
  rewrite random_food_position_S in H.
  destruct (free snake obstacles (draw g 0)) eqn:E.
  - inversion H; subst. split; [exact E|]. exists O. split; [lia|reflexivity].
  - apply IH in H. destruct H as (Hf & k & Hk & ->).
    split; [exact Hf|]. exists (S k). split; [lia|apply draw_advance].
Qed.







(** ** Facts about the pieces of a tick *)

Lemma bind_Ok {A B} (m : M A) (k : A -> M B) g b g' :
  bind m k g = Ok b g' ->
  exists a g1, m g = Ok a g1 /\ k a g1 = Ok b g'.
Proof.
  unfold bind. destruct (m g) as [a g1| |]; try discriminate. eauto.
Qed.

Lemma state_eta (s : State) :
  s = mkState (snake s) (direction s) (food_pos s) (food_type s) (score s)
        (game_over s) (paused s) (show_grid s) (level s) (obstacles s)
        (powerup_active s) (powerup_timer s) (FPS s) (high_score s)
        (waiting s) (ser s).
Proof. destruct s; reflexivity. Qed.

Lemma spawn_particles_Ok n : forall g, exists g', spawn_particles n g = Ok tt g'.
Proof.
  induction n as [|n IH]; intros g; simpl.
  - eexists; reflexivity.
  - unfold bind, randint. apply IH.
Qed.

Lemma add_obstacles_Ok n fuel :
  forall s g s' g',
    add_obstacles n fuel s g = Ok s' g' ->
    exists ps, List.length ps = n /\ s' = set_obstacles (obstacles s ++ ps) s.
Proof.
  induction n as [|n IH]; intros s g s' g' H; simpl in H.
  - inversion H; subst. exists []. split; [reflexivity|].
    rewrite app_nil_r. destruct s'; reflexivity.
  - apply bind_Ok in H. destruct H as (p & g1 & _ & H).
    apply IH in H. destruct H as (ps & Hlen & ->).
    exists (p :: ps). split; [simpl; congruence|].
    unfold set_obstacles; simpl. rewrite <- app_assoc. reflexivity.
Qed.

Lemma level_progression_Ok fuel s g s' g' :
  level_progression fuel s g = Ok s' g' ->
  (score s / 10 + 1 <= level s /\ s' = s /\ g' = g) \/
  (level s < score s / 10 + 1 /\
   exists ps, List.length ps = Z.to_nat (score s / 10 + 1) /\
     s' = set_obstacles (obstacles s ++ ps)
            (set_FPS (FPS s + (1 # 2))%Q (set_level (score s / 10 + 1) s))).
Proof.
  unfold level_progression. intros H.
  destruct (score s / 10 + 1 >? level s) eqn:E.
  - right. apply Z.gtb_lt in E. split; [lia|].
    apply add_obstacles_Ok in H. exact H.
  - left. inversion H; subst.
    assert (~ (level s' < score s' / 10 + 1)) by (rewrite <- Z.gtb_lt; congruence).
    repeat split; lia.
Qed.

Lemma after_bite_fields s :
  snake (after_bite s) = snake s /\
  obstacles (after_bite s) = obstacles s /\
  score (after_bite s) = score s + 1 /\
  level (after_bite s) = level s /\
  game_over (after_bite s) = game_over s /\
  direction (after_bite s) = direction s.
Proof.
  unfold after_bite, save_high_score.
  destruct (score s + 1 >? _); simpl; destruct (food_type s); simpl; auto 10.
Qed.

Lemma eat_food_Ok fuel s g s' g' :
  eat_food fuel s g = Ok s' g' ->
  exists p ft,
    free (snake s) (obstacles s) p = true /\
    s' = set_food_type ft (set_food_pos p (after_bite s)).
Proof.
  unfold eat_food. intros H.
  apply bind_Ok in H. destruct H as ([] & g1 & _ & H).
  change (match food_type (save_high_score (score (set_score (score s + 1) s))
                             (set_score (score s + 1) s)) with
          | normal => save_high_score (score (set_score (score s + 1) s))
                        (set_score (score s + 1) s)
          | power => set_FPS 10 (set_powerup_timer 105 (set_powerup_active true
                       (save_high_score (score (set_score (score s + 1) s))
                          (set_score (score s + 1) s))))
          end) with (after_bite s) in H.
  apply bind_Ok in H. destruct H as (p & g2 & Hp & H).
  apply bind_Ok in H. destruct H as (k & g3 & _ & H).
  inversion H; subst; clear H.
  exists p, (if lt_one_tenth k then power else normal).
  split; [|reflexivity].
  destruct (after_bite_fields s) as (E1 & E2 & _).
  rewrite E1, E2 in Hp.
  apply random_food_position_Ok in Hp. apply Hp.
Qed.

Lemma joystick_direction_paused x y b s :
  snd (joystick_direction x y b s) =
  set_paused (paused (snd (joystick_direction x y b s))) s.
Proof.
  unfold joystick_direction. cbn [snd].
  destruct (b =? 0); simpl; apply state_eta.
Qed.

(** Polling the input touches no variable but [paused]. *)
Lemma get_direction_paused env s :
  snd (get_direction env s) = set_paused (paused (snd (get_direction env s))) s.
Proof.
  unfold get_direction.
  destruct (ser s).
  - destruct (serial_read env) as [|raw]; [apply state_eta|].
    destruct (strip raw); [apply state_eta|].
    destruct (_ =? 3)%nat; [|apply state_eta].
    destruct (py_int _); [|apply state_eta].
    destruct (py_int _); [|apply state_eta].
    destruct (py_int _); [|apply state_eta].
    apply joystick_direction_paused.
  - cbn [snd]. destruct (keys env K_p); simpl; apply state_eta.
Qed.

Lemma update_direction_direction c s :
  direction (update_direction c s) =
  if accepts (direction s) c then c else direction s.
Proof. unfold update_direction. destruct (accepts _ _); reflexivity. Qed.

Lemma polled_eq env s :
  polled env s =
  set_direction (direction (polled env s))
    (set_paused (paused (snd (get_direction env s))) s).
Proof.
  rewrite <- get_direction_paused.
  unfold polled, update_direction.
  destruct (accepts _ _); [reflexivity|].
  destruct (snd (get_direction env s)); reflexivity.
Qed.

Lemma tick_unfold fuel env s g :
  tick fuel env s g =
  match (if negb (pos_eqb (direction (polled env s)) (0, 0))
         then move fuel (polled env s) else ret (polled env s)) g with
  | Ok s2 g' => Ok (powerup_countdown s2) g'
  | Diverges => Diverges
  | IndexError => IndexError
  end.
Proof.
  unfold tick, polled. destruct (get_direction env s) as [d s0]. reflexivity.
Qed.

(** The state after lines 222-234: both collision tests and the insertion
    of the new head. *)
Lemma move_unfold fuel s h t :
  snake s = h :: t ->
  move fuel s =
  let nh := next_head h (direction s) in
  let s1 := set_snake (nh :: snake s)
              (set_game_over (hits_wall nh || hits_body s nh || game_over s) s) in
  (s2 <- (if pos_eqb nh (food_pos s) then eat_food fuel s1
          else ret (set_snake (nh :: removelast (snake s)) s1)) ;;
   level_progression fuel s2).
Proof.
  intros Hs. unfold move. rewrite Hs. cbv zeta.
  unfold hits_body.
  destruct s as [sn d fp ft sc go pa sg lv ob pu pt fps hs wa se].
  simpl in *. subst sn.
  destruct (hits_wall (next_head h d)); simpl;
    destruct (negb pu && (_ || mem (next_head h d) ob)); simpl;
    try reflexivity; destruct go; reflexivity.
Qed.

Lemma powerup_countdown_fields s :
  snake (powerup_countdown s) = snake s /\
  score (powerup_countdown s) = score s /\
  level (powerup_countdown s) = level s /\
  obstacles (powerup_countdown s) = obstacles s /\
  game_over (powerup_countdown s) = game_over s /\
  direction (powerup_countdown s) = direction s /\
  food_pos (powerup_countdown s) = food_pos s /\
  high_score (powerup_countdown s) = high_score s.
Proof.
  unfold powerup_countdown.
  destruct (powerup_active s); simpl; [|auto 10].
  destruct (_ <=? 0); simpl; auto 10.
Qed.

Lemma level_progression_fields fuel s g s' g' :
  level_progression fuel s g = Ok s' g' ->
  snake s' = snake s /\ score s' = score s /\ game_over s' = game_over s /\
  direction s' = direction s /\ food_pos s' = food_pos s /\
  high_score s' = high_score s /\
  powerup_active s' = powerup_active s /\ powerup_timer s' = powerup_timer s /\
  level s' = Z.max (level s) (score s / 10 + 1) /\
  exists ps, obstacles s' = obstacles s ++ ps /\
    List.length ps =
      (if score s / 10 + 1 >? level s then Z.to_nat (score s / 10 + 1) else O).
Proof.
  intros H. apply level_progression_Ok in H.
  destruct H as [(Hle & -> & _) | (Hlt & ps & Hlen & ->)].
  - repeat split; try reflexivity; [lia|].
    exists []. rewrite app_nil_r. split; [reflexivity|].
    destruct (_ >? _) eqn:E; [apply Z.gtb_lt in E; lia | reflexivity].
  - simpl. repeat split; try reflexivity; [lia|].
    exists ps. split; [reflexivity|].
    destruct (_ >? _) eqn:E; [exact Hlen|].
    assert (~ level s < score s / 10 + 1) by (rewrite <- Z.gtb_lt; congruence).
    contradiction.
Qed.

Lemma polled_fields env s :
  snake (polled env s) = snake s /\ food_pos (polled env s) = food_pos s /\
  score (polled env s) = score s /\ game_over (polled env s) = game_over s /\
  level (polled env s) = level s /\ obstacles (polled env s) = obstacles s /\
  powerup_active (polled env s) = powerup_active s /\
  powerup_timer (polled env s) = powerup_timer s /\
  FPS (polled env s) = FPS s /\ high_score (polled env s) = high_score s /\
  food_type (polled env s) = food_type s.
Proof. rewrite (polled_eq env s). simpl. auto 12. Qed.

Lemma hits_body_polled env s p : hits_body (polled env s) p = hits_body s p.
Proof.
  unfold hits_body.
  destruct (polled_fields env s) as (-> & _ & _ & _ & _ & -> & -> & _).
  reflexivity.
Qed.

(** The two shapes of a tick that returns. *)
Lemma tick_cases fuel env s g s' g' :
  tick fuel env s g = Ok s' g' ->
  (tick_new_head env s = None /\ s' = powerup_countdown (polled env s) /\ g' = g)
  \/
  (exists nh s2 g2 s3,
      tick_new_head env s = Some nh /\
      let s1 := set_snake (nh :: snake s)
                  (set_game_over (hits_wall nh || hits_body s nh || game_over s)
                     (polled env s)) in
      (if pos_eqb nh (food_pos s)
       then exists q ft, free (nh :: snake s) (obstacles s) q = true /\
              s2 = set_food_type ft (set_food_pos q (after_bite s1))
       else s2 = set_snake (nh :: removelast (snake s)) s1 /\ g2 = g) /\
      level_progression fuel s2 g2 = Ok s3 g' /\
      s' = powerup_countdown s3).
Proof.
  rewrite tick_unfold. unfold tick_new_head.
  destruct (polled_fields env s) as (Hsn & Hfp & _ & _ & _ & Hob & _).
  destruct (pos_eqb (direction (polled env s)) (0, 0)) eqn:Ed; simpl.
  - intros H. inversion H; subst. left. auto.
  - destruct (snake s) as [|h t] eqn:Es.
    + unfold move. rewrite Hsn. discriminate.
    + rewrite (move_unfold fuel (polled env s) h t) by congruence.
      cbv zeta. rewrite hits_body_polled, Hsn, Hfp.
      destruct (polled_fields env s) as (_ & _ & _ & -> & _).
      set (nh := next_head h (direction (polled env s))).
      set (s1 := set_snake (nh :: h :: t) _).
      destruct (bind _ _ g) as [s3 g3| |] eqn:Hb; try discriminate.
      intros H. inversion H; subst s' g'. clear H.
      apply bind_Ok in Hb. destruct Hb as (s2 & g2 & Hmid & Hlv).
      right. exists nh, s2, g2, s3. split; [reflexivity|].
      cbv zeta. fold s1. split; [|split; [exact Hlv | reflexivity]].
      destruct (pos_eqb nh (food_pos s)).
      * apply eat_food_Ok in Hmid. destruct Hmid as (q & ft & Hq & ->).
        exists q, ft. split; [|reflexivity].
        subst s1. simpl in Hq. rewrite Hob in Hq. exact Hq.
      * inversion Hmid; subst. split; reflexivity.
Qed.

(** What a tick that returns has done to the game variables. *)
Lemma tick_summary fuel env s g s' g' :
  tick fuel env s g = Ok s' g' ->
  direction s' = direction (polled env s) /\
  match tick_new_head env s with
  | None =>
      snake s' = snake s /\ score s' = score s /\ level s' = level s /\
      obstacles s' = obstacles s /\ food_pos s' = food_pos s /\
      game_over s' = game_over s /\ high_score s' = high_score s
  | Some nh =>
      snake s' = (if pos_eqb nh (food_pos s) then nh :: snake s
                  else nh :: removelast (snake s)) /\
      score s' = (if pos_eqb nh (food_pos s) then score s + 1 else score s) /\
      game_over s' = hits_wall nh || hits_body s nh || game_over s /\
      level s' = Z.max (level s) (score s' / 10 + 1) /\
      (exists ps, obstacles s' = obstacles s ++ ps /\
         List.length ps = (if score s' / 10 + 1 >? level s
                           then Z.to_nat (score s' / 10 + 1) else O)) /\
      (pos_eqb nh (food_pos s) = false ->
         food_pos s' = food_pos s /\ high_score s' = high_score s)
  end.
Proof.
  intros H. apply tick_cases in H.
  destruct (polled_fields env s)
    as (Psn & Pfp & Psc & Pgo & Plv & Pob & _ & _ & _ & Phs & _).
  destruct H as [(-> & -> & _) | (nh & s2 & g2 & s3 & -> & Hmid & Hlv & ->)].
  - destruct (powerup_countdown_fields (polled env s))
      as (-> & -> & -> & -> & -> & -> & -> & ->).
    rewrite Psn, Psc, Pgo, Plv, Pob, Pfp, Phs. auto 10.
  - cbv zeta in Hmid.
    destruct (powerup_countdown_fields s3)
      as (-> & -> & -> & -> & -> & -> & -> & ->).
    apply level_progression_fields in Hlv.
    destruct Hlv as (-> & -> & -> & -> & -> & -> & _ & _ & -> & ps & -> & Hps).
    destruct (pos_eqb nh (food_pos s)) eqn:Eat.
    + destruct Hmid as (q & ft & _ & ->). cbn [direction snake score game_over
        level obstacles set_food_type set_food_pos].
      match goal with |- context [after_bite ?x] =>
        destruct (after_bite_fields x) as (A1 & A2 & A3 & A4 & A5 & A6) end.
      cbn [direction snake score game_over level obstacles set_food_type
           set_food_pos] in Hps |- *.
      rewrite A1, A3, A4, A5, A6, A2 in *. simpl in *.
      rewrite Psc, Plv, Pob in *.
      repeat split; auto; try discriminate. exists ps. auto.
    + destruct Hmid as (-> & _). simpl in *.
      rewrite Psc, Plv, Pob, Pfp, Phs in *.
      repeat split; auto. exists ps. auto.
Qed.

(** ** Facts about the loop driver *)

Lemma handle_events_fields evs :
  forall s s0,
    handle_events evs s = Some s0 ->
    snake s0 = snake s /\ score s0 = score s /\ level s0 = level s /\
    obstacles s0 = obstacles s /\ game_over s0 = game_over s /\
    high_score s0 = high_score s /\ waiting s0 = waiting s.
Proof.
  induction evs as [|e evs IH]; intros s s0 H; simpl in H.
  - inversion H; subst; auto 10.
  - destruct e as [|k|]; [discriminate| |exact (IH _ _ H)].
    apply IH in H.
    destruct k; simpl in H; exact H.
Qed.

Lemma restart_fields fuel s g s' g' :
  restart fuel s g = Ok s' g' ->
  snake s' = [(WIDTH / 2, HEIGHT / 2)] /\ direction s' = (0, 0) /\
  food_type s' = normal /\ score s' = 0 /\ game_over s' = false /\
  level s' = 1 /\ obstacles s' = [] /\ powerup_active s' = false /\
  FPS s' = 7%Q /\ high_score s' = high_score s /\ paused s' = paused s /\
  free [(WIDTH / 2, HEIGHT / 2)] [] (food_pos s') = true.
Proof.
  unfold restart. intros H.
  apply bind_Ok in H. destruct H as (p & g1 & Hp & H).
  inversion H; subst; clear H. simpl in *.
  apply random_food_position_Ok in Hp. destruct Hp as (Hp & _).
  repeat split; auto.
Qed.

Lemma init_fields fuel hs so g s g' :
  init fuel hs so g = Ok s g' ->
  snake s = [(WIDTH / 2, HEIGHT / 2)] /\ score s = 0 /\ level s = 1 /\
  obstacles s = [] /\ game_over s = false /\ high_score s = hs /\
  waiting s = true.
Proof.
  unfold init. intros H.
  apply bind_Ok in H. destruct H as (p & g1 & _ & H).
  inversion H; subst; simpl. auto 10.
Qed.

Lemma menu_iteration_fields env s s' :
  menu_iteration env s = Running s' ->
  snake s' = snake s /\ score s' = score s /\ level s' = level s /\
  obstacles s' = obstacles s /\ game_over s' = game_over s /\
  high_score s' = high_score s.
Proof.
  unfold menu_iteration.
  destruct (existsb is_quit (events env)); [discriminate|].
  destruct (keys env K_SPACE).
  - intros H; inversion H; subst; simpl; auto 10.
  - destruct (get_direction env s) as [d s0] eqn:E.
    assert (Hs0 : s0 = set_paused (paused s0) s).
    { pose proof (get_direction_paused env s) as P. rewrite E in P. exact P. }
    destruct (negb (pos_eqb d (0, 0))); intros H; inversion H; subst s';
      rewrite Hs0; simpl; auto 10.
Qed.

Lemma sum_levels_1 : sum_levels 1 = 0.
Proof. reflexivity. Qed.

Lemma sum_levels_succ n : 1 <= n -> sum_levels (n + 1) = sum_levels n + (n + 1).
Proof.
  intros Hn. unfold sum_levels.
  replace (Z.to_nat (n + 1) - 1)%nat with (S (Z.to_nat n - 1)) by lia.
  rewrite seq_S, map_app, fold_right_app. simpl.
  assert (G : forall l a, fold_right Z.add a l = fold_right Z.add 0 l + a).
  { induction l as [|x l IH]; intros a; simpl; [lia|]. rewrite IH. lia. }
  rewrite G. lia.
Qed.

(** A tick keeps the invariant and raises the level by at most one. *)
Lemma tick_Inv fuel env s g s' g' :
  Inv s -> tick fuel env s g = Ok s' g' ->
  Inv s' /\ (level s' = level s \/ level s' = level s + 1) /\
  (level s < level s' ->
     List.length (obstacles s') =
       (List.length (obstacles s) + Z.to_nat (level s'))%nat).
Proof.
  intros (Hsc & Hlv & Hob & Hsn) H.
  apply tick_summary in H. destruct H as (_ & H).
  unfold Inv.
  destruct (tick_new_head env s) as [nh|].
  - destruct H as (Esn & Esc & _ & Elv & (ps & Eob & Hps) & _).
    assert (Hsc' : score s' = score s \/ score s' = score s + 1)
      by (destruct (pos_eqb nh (food_pos s)); auto).
    assert (Hdiv : score s / 10 <= score s' / 10 <= score s / 10 + 1).
    { destruct Hsc' as [->| ->]; [lia|].
      pose proof (Z.div_le_mono (score s) (score s + 1) 10 ltac:(lia) ltac:(lia)).
      pose proof (Z.div_le_mono (score s + 1) (score s + 10) 10 ltac:(lia) ltac:(lia)).
      replace (score s + 10) with (score s + 1 * 10) in * by lia.
      rewrite Z.div_add in * by lia. lia. }
    assert (Hnn : 0 <= score s / 10) by (apply Z.div_pos; lia).
    rewrite Eob, length_app, Hps, Elv.
    destruct (score s' / 10 + 1 >? level s) eqn:E.
    + apply Z.gtb_lt in E.
      assert (score s' / 10 + 1 = level s + 1) by lia.
      rewrite Z.max_r by lia.
      repeat split; try lia.
      * rewrite Nat2Z.inj_add, Hob, Z2Nat.id by lia.
        replace (score s' / 10 + 1) with (level s + 1) by lia.
        rewrite sum_levels_succ by lia. lia.
      * rewrite Esn. destruct (pos_eqb nh (food_pos s)); discriminate.
    + assert (~ level s < score s' / 10 + 1) by (rewrite <- Z.gtb_lt; congruence).
      rewrite Z.max_l by lia.
      repeat split; try lia.
      * rewrite Esn. destruct (pos_eqb nh (food_pos s)); discriminate.
  - destruct H as (-> & -> & -> & -> & _).
    repeat split; auto; lia.
Qed.

Lemma Inv_transfer s s' :
  snake s' = snake s -> score s' = score s -> level s' = level s ->
  obstacles s' = obstacles s -> Inv s -> Inv s'.
Proof. unfold Inv. intros -> -> -> ->. auto. Qed.

Lemma frame_Inv fuel env s g s' g' :
  Inv s -> frame fuel env s g = Ok (Running s') g' ->
  Inv s' /\ (level s' = 1 \/ level s' = level s \/ level s' = level s + 1).
Proof.
  intros HI. unfold frame.
  destruct (handle_events (events env) s) as [s0|] eqn:Ev; [|discriminate].
  apply handle_events_fields in Ev.
  destruct Ev as (E1 & E2 & E3 & E4 & _).
  assert (HI0 : Inv s0) by (eapply Inv_transfer; eauto).
  rewrite <- E3. clear E1 E2 E3 E4 HI.
  destruct (paused s0).
  - intros H; inversion H; subst. auto.
  - intros H. apply bind_Ok in H. destruct H as (s1 & g1 & Ht & H).
    apply bind_Ok in H. destruct H as (s2 & g2 & Hr & H).
    inversion H; subst s2 g2; clear H.
    assert (H1 : Inv s1 /\ (level s1 = level s0 \/ level s1 = level s0 + 1)).
    { destruct (negb (game_over s0)).
      - apply (tick_Inv _ _ _ _ _ _ HI0) in Ht. tauto.
      - inversion Ht; subst. auto. }
    destruct H1 as (HI1 & Hl1).
    destruct (game_over s1 && keys env K_r).
    + apply restart_fields in Hr.
      destruct Hr as (Rsn & _ & _ & Rsc & _ & Rlv & Rob & _).
      split; [|auto].
      unfold Inv. rewrite Rsn, Rsc, Rlv, Rob.
      repeat split; try discriminate; try lia.
    + inversion Hr; subst. split; [assumption|tauto].
Qed.

Lemma step_Inv fuel env s g s' g' :
  Inv s -> step fuel env s g = Ok (Running s') g' ->
  Inv s' /\ (level s' = 1 \/ level s' = level s \/ level s' = level s + 1).
Proof.
  intros HI. unfold step. destruct (waiting s).
  - intros H. inversion H as [H1]. apply menu_iteration_fields in H1.
    destruct H1 as (E1 & E2 & E3 & E4 & _).
    split; [eapply Inv_transfer; eauto | auto].
  - apply frame_Inv. exact HI.
Qed.

Lemma init_Inv fuel hs so g s g' :
  init fuel hs so g = Ok s g' -> Inv s /\ level s = 1.
Proof.
  intros H. apply init_fields in H.
  destruct H as (Esn & Esc & Elv & Eob & _).
  unfold Inv. rewrite Esn, Esc, Elv, Eob.
  repeat split; try discriminate; try lia.
Qed.

Lemma reachable_Inv s : reachable s -> Inv s.
Proof.
  induction 1 as [fuel hs so g s g' H | fuel env g s s' g' _ IH H].
  - apply init_Inv in H. tauto.
  - eapply step_Inv in H; eauto. tauto.
Qed.

Lemma after_level_ups_reachable n s : after_level_ups n s -> reachable s.
Proof.
  induction 1; [eapply reach_init | eapply reach_step]; eauto.
Qed.

Lemma after_level_ups_level n s :
  after_level_ups n s -> level s = Z.of_nat n + 1.
Proof.
  induction 1 as [fuel hs so g s g' H | n fuel env g s s' g' Hs IH H].
  - apply init_Inv in H. simpl. tauto.
  - pose proof (reachable_Inv _ (after_level_ups_reachable _ _ Hs)) as HI.
    destruct (step_Inv _ _ _ _ _ _ HI H) as (_ & Hl).
    unfold count_after.
    destruct (level s <? level s') eqn:E1.
    + apply Z.ltb_lt in E1. lia.
    + apply Z.ltb_ge in E1.
      destruct (level s' <? level s) eqn:E2.
      * apply Z.ltb_lt in E2. simpl. lia.
      * apply Z.ltb_ge in E2. lia.
Qed.

Lemma run_counting_sound fuel inputs :
  forall n s n' s',
    after_level_ups n s -> run_counting fuel inputs n s = Some (n', s') ->
    after_level_ups n' s'.
Proof.
  induction inputs as [|[env g] rest IH]; intros n s n' s' Hs H; simpl in H.
  - inversion H; subst. exact Hs.
  - destruct (step fuel env s g) as [[|s1] g1| |] eqn:E; try discriminate.
    eapply IH; [|exact H]. eapply ups_step; eauto.
Qed.

Lemma boot_sound fuel hs so g inputs n s :
  boot fuel hs so g inputs = Some (n, s) -> after_level_ups n s.
Proof.
  unfold boot. destruct (init fuel hs so g) as [s0 g0| |] eqn:E; try discriminate.
  apply run_counting_sound. eapply ups_init; eauto.
Qed.

Lemma In_removelast (p : Pos) l : In p (removelast l) -> In p l.
Proof.
  induction l as [|a l IH]; [auto|].
  destruct l as [|b l]; [intros []|].
  change (removelast (a :: b :: l)) with (a :: removelast (b :: l)).
  intros [->|H]; [left; reflexivity | right; apply IH; exact H].
Qed.

Lemma NoDup_removelast (l : list Pos) : NoDup l -> NoDup (removelast l).
Proof.
  induction l as [|a l IH]; intros H; [exact H|].
  destruct l as [|b l]; [constructor|].
  change (removelast (a :: b :: l)) with (a :: removelast (b :: l)).
  inversion H as [|? ? Hn Hl]; subst.
  constructor; [|apply IH; exact Hl].
  intros Hin. apply Hn. apply In_removelast. exact Hin.
Qed.

Lemma length_removelast_cons (a : Pos) l :
  List.length (removelast (a :: l)) = List.length l.
Proof.
  revert a. induction l as [|b l IH]; intros a; [reflexivity|].
  change (removelast (a :: b :: l)) with (a :: removelast (b :: l)).
  change (S (List.length (removelast (b :: l))) = S (List.length l)).
  rewrite IH. reflexivity.
Qed.

Lemma accepts_spec d c :
  accepts d c = true <-> c <> (0, 0) /\ c <> negation d.
Proof.
  unfold accepts, negation.
  rewrite andb_true_iff, !negb_true_iff, !pos_eqb_neq.
  destruct c as [cx cy], d as [dx dy]; simpl.
  split; intros [A B]; split; auto; intros E; inversion E; subst;
    [apply A | apply B]; f_equal; lia.
Qed.

Lemma filter_no_reversal d c :
  d <> (0, 0) -> (if accepts d c then c else d) <> negation d.
Proof.
  intros Hd. destruct (accepts d c) eqn:E.
  - apply accepts_spec in E. tauto.
  - destruct d as [dx dy]. unfold negation; simpl.
    intros E'. inversion E'. apply Hd. f_equal; lia.
Qed.

Lemma polled_direction env s :
  direction (polled env s) =
  if accepts (direction s) (fst (get_direction env s))
  then fst (get_direction env s) else direction s.
Proof.
  unfold polled. rewrite update_direction_direction.
  rewrite (get_direction_paused env s). reflexivity.
Qed.

(** ** Entity placement: what [random_food_position] returns *)

(** C5: whenever [random_food_position] returns, the position it returns is
    in neither the snake nor the obstacle list, lies inside the board and is
    aligned on the cell grid.  (This holds for every occupied set, so in
    particular for the ones smaller than the board.) *)
Theorem random_food_position_free_cell fuel snake obstacles g p g' :
  random_food_position fuel snake obstacles g = Ok p g' ->
  ~ In p snake /\ ~ In p obstacles /\
  0 <= fst p < WIDTH /\ 0 <= snd p < HEIGHT /\
  fst p mod CELL_SIZE = 0 /\ snd p mod CELL_SIZE = 0.
Proof.
  intros H. apply random_food_position_Ok in H.
  destruct H as (Hfree & k & _ & ->).
  apply free_spec in Hfree. destruct Hfree as [Hs Ho].
  split; [exact Hs|]. split; [exact Ho|].
  unfold draw. apply cell_of_raw_on_board.
Qed.

Lemma random_food_position_free_cell_witness :
  random_food_position 3 [(400, 300)] [(0, 0)] (rng_of_pair 0 7)
    = Ok (0, 140) (advance (advance (rng_of_pair 0 7))) /\
  (~ In (0, 140) [(400, 300)] /\ ~ In (0, 140) [(0, 0)] /\
   0 <= fst (0, 140) < WIDTH /\ 0 <= snd (0, 140) < HEIGHT /\
   fst (0, 140) mod CELL_SIZE = 0 /\ snd (0, 140) mod CELL_SIZE = 0).
Proof.
  split; [reflexivity|].
  apply (random_food_position_free_cell 3 [(400, 300)] [(0, 0)]
           (rng_of_pair 0 7) (0, 140) (advance (advance (rng_of_pair 0 7)))).
  reflexivity.
Defined.




(** ** Input: the anti-reversal filter and malformed frames *)

(** C3: a candidate becomes the new direction exactly when it is non-zero
    and is not the negation of the current direction, otherwise the current
    direction is kept; so within a tick, and along any sequence of
    candidates, a non-zero direction is never followed by its negation. *)
Theorem direction_filter_never_reverses (env : Env) (s : State) (d c : Pos)
  (candidates : list Pos) :
  (accepts d c = true <-> c <> (0, 0) /\ c <> negation d) /\
  direction (update_direction c s)
    = (if accepts (direction s) c then c else direction s) /\
  no_reversal [direction s; direction (polled env s)] /\
  no_reversal (direction_trace d candidates).
Proof.
  split; [apply accepts_spec|].
  split; [apply update_direction_direction|].
  split.
  - simpl. split; [|exact I].
    rewrite polled_direction. apply filter_no_reversal.
  - revert d. induction candidates as [|c' rest IH]; intros d; [exact I|].
    cbn [direction_trace]. destruct rest as [|c'' rest'].
    + simpl. split; [apply filter_no_reversal | exact I].
    + split; [apply filter_no_reversal|]. apply IH.
Qed.



(** ** Growth, score and the power-up clock *)



(** C10: on the tick where the power-up countdown reaches zero (active
    before the tick, inactive after it) the tick rate becomes exactly 7,
    whatever the level and whatever the rate was, so the half-frame
    increments earned by the level-ups so far are gone. *)
Theorem powerup_expiry_resets_rate fuel env s g s' g' :
  tick fuel env s g = Ok s' g' ->
  powerup_active s = true -> powerup_active s' = false ->
  FPS s' = 7%Q /\ powerup_timer s' <= 0.
Proof.
  intros H Hact Hoff.
  assert (Hcd : forall s3, powerup_active s3 = true ->
            powerup_active (powerup_countdown s3) = false ->
            FPS (powerup_countdown s3) = 7%Q /\
            powerup_timer (powerup_countdown s3) <= 0).
  { intros s3 H3. unfold powerup_countdown. rewrite H3. simpl.
    destruct (powerup_timer s3 - 1 <=? 0) eqn:E; simpl.
    - intros _. apply Z.leb_le in E. split; [reflexivity | exact E].
    - congruence. }
  apply tick_cases in H.
  destruct H as [(_ & -> & _) | (nh & s2 & g2 & s3 & _ & Hmid & Hlv & ->)].
  - apply Hcd; [|exact Hoff].
    destruct (polled_fields env s) as (_ & _ & _ & _ & _ & _ & -> & _).
    exact Hact.
  - apply Hcd; [|exact Hoff].
    apply level_progression_fields in Hlv.
    destruct Hlv as (_ & _ & _ & _ & _ & _ & -> & _).
    cbv zeta in Hmid.
    destruct (polled_fields env s) as (_ & _ & _ & _ & _ & _ & Ppu & _ & _ & _ & Pft).
    destruct (pos_eqb nh (food_pos s)).
    + destruct Hmid as (q & ft & _ & ->). simpl.
      unfold after_bite, save_high_score. simpl.
      destruct (_ >? _); simpl; rewrite Pft; destruct (food_type s); simpl;
        congruence.
    + destruct Hmid as (-> & _). simpl. congruence.
Qed.

Lemma powerup_expiry_resets_rate_witness :
  level expiring = 3 /\ FPS expiring = (21 # 2)%Q /\
  powerup_active expiring = true /\
  (exists s', tick 1 (holding K_RIGHT) expiring zero_rng = Ok s' zero_rng /\
     powerup_active s' = false /\ level s' = 3 /\ FPS s' = 7%Q).
Proof.
  repeat (split; [reflexivity|]).
  eexists. split; [reflexivity|]. split; [reflexivity|].
  split; [reflexivity|].
  exact (proj1 (powerup_expiry_resets_rate 1 (holding K_RIGHT) expiring
                  zero_rng _ zero_rng eq_refl eq_refl eq_refl)).
Defined.

(** ** Collisions *)

(** C1, as stated, fails: the tick that runs into the right wall sets
    [game_over] and still inserts the off-board head and drops the tail. *)
Lemma wall_hit_still_moves_snake :
  reachable wall_before /\
  fatal_collision (holding K_RIGHT) wall_before = true /\
  tick 1 (holding K_RIGHT) wall_before zero_rng = Ok wall_after zero_rng /\
  game_over wall_after = true /\
  snake wall_before = [(780, 300)] /\ snake wall_after = [(800, 300)] /\
  snake wall_after <> snake wall_before.
Proof.
  split.
  - apply (after_level_ups_reachable 0).
    apply (boot_sound 1 0 false zero_rng wall_inputs). reflexivity.
  - repeat (split; [reflexivity|]). discriminate.
Qed.

(** C1, amended: a tick with a fatal collision sets [game_over] but does not
    skip the rest of the tick.  When the new head is not on the food (and
    the level is up to date with the score, as in every reachable state),
    the tick returns, the new head is inserted and the tail removed, so the
    snake changes and keeps its length, and score, food and obstacles are
    unchanged. *)
Theorem collision_tick_completes fuel env s g nh :
  tick_new_head env s = Some nh ->
  hits_wall nh || hits_body s nh = true ->
  pos_eqb nh (food_pos s) = false ->
  score s / 10 + 1 <= level s ->
  exists s',
    tick fuel env s g = Ok s' g /\
    game_over s' = true /\
    snake s' = nh :: removelast (snake s) /\
    List.length (snake s') = List.length (snake s) /\
    score s' = score s /\ food_pos s' = food_pos s /\
    food_type s' = food_type s /\ obstacles s' = obstacles s /\
    level s' = level s.
Proof.
  intros Hnh Hhit Hfood Hlv.
  destruct (polled_fields env s)
    as (Psn & Pfp & Psc & Pgo & Plv & Pob & _ & _ & _ & _ & Pft).
  unfold tick_new_head in Hnh.
  destruct (pos_eqb (direction (polled env s)) (0, 0)) eqn:Ed; [discriminate|].
  destruct (snake s) as [|h t] eqn:Es; [discriminate|].
  inversion Hnh as [Hnh']. clear Hnh.
  rewrite tick_unfold, Ed. cbn [negb].
  rewrite (move_unfold fuel (polled env s) h t) by congruence.
  cbv zeta. rewrite Hnh', hits_body_polled, Pfp, Hfood, Psn, Hhit.
  unfold bind, ret.
  set (s2 := set_snake (nh :: removelast (h :: t)) _).
  assert (E : level_progression fuel s2 g = Ok s2 g).
  { unfold level_progression.
    replace (score s2) with (score s) by (subst s2; simpl; congruence).
    replace (level s2) with (level s) by (subst s2; simpl; congruence).
    destruct (score s / 10 + 1 >? level s) eqn:E; [|reflexivity].
    apply Z.gtb_lt in E. lia. }
  rewrite E. eexists. split; [reflexivity|].
  destruct (powerup_countdown_fields s2)
    as (-> & -> & -> & -> & -> & _ & -> & _).
  assert (Eft : food_type (powerup_countdown s2) = food_type s2).
  { unfold powerup_countdown. destruct (powerup_active s2); [|reflexivity].
    simpl. destruct (_ <=? 0); reflexivity. }
  rewrite Eft. subst s2. simpl.
  repeat split; auto.
  change (S (List.length (removelast (h :: t))) = S (List.length t)).
  rewrite length_removelast_cons. reflexivity.
Qed.

Lemma collision_tick_completes_witness :
  tick_new_head (holding K_RIGHT) wall_before = Some (800, 300) /\
  hits_wall (800, 300) || hits_body wall_before (800, 300) = true /\
  exists s',
    tick 1 (holding K_RIGHT) wall_before zero_rng = Ok s' zero_rng /\
    game_over s' = true /\
    snake s' = (800, 300) :: removelast (snake wall_before) /\
    List.length (snake s') = List.length (snake wall_before) /\
    score s' = score wall_before /\ food_pos s' = food_pos wall_before /\
    food_type s' = food_type wall_before /\
    obstacles s' = obstacles wall_before /\ level s' = level wall_before.
Proof.
  split; [reflexivity|]. split; [reflexivity|].
  apply (collision_tick_completes 1 (holding K_RIGHT) wall_before zero_rng
           (800, 300)); reflexivity.
Defined.

(** C2, as stated, fails: with the power-up active the self-collision test
    is skipped, and a snake of five cells that turns back into itself
    overlaps without ending the run. *)
Lemma powered_snake_overlaps_itself :
  reachable overlap_before /\
  tick 1 (holding K_UP) overlap_before zero_rng = Ok overlap_after zero_rng /\
  game_over overlap_after = false /\
  ~ NoDup (snake overlap_after).
Proof.
  split.
  - apply (after_level_ups_reachable 0).
    apply (boot_sound 1 0 false (rng_of_pair 21 15) power_inputs). reflexivity.
  - repeat (split; [reflexivity|]).
    intros H. inversion H as [|x l Hn _]; subst.
    apply Hn. simpl. auto 10.
Qed.

(** C2, amended: from a state whose snake has no duplicate cell and whose
    power-up is inactive, a tick that does not set [game_over] leaves a snake
    with no duplicate cell. *)
Theorem tick_keeps_snake_duplicate_free fuel env s g s' g' :
  NoDup (snake s) -> powerup_active s = false ->
  tick fuel env s g = Ok s' g' -> game_over s' = false ->
  NoDup (snake s').
Proof.
  intros Hnd Hpu H Hgo.
  apply tick_summary in H. destruct H as (_ & H).
  destruct (tick_new_head env s) as [nh|].
  - destruct H as (-> & _ & Ego & _).
    rewrite Ego in Hgo.
    apply orb_false_iff in Hgo. destruct Hgo as [Hgo _].
    apply orb_false_iff in Hgo. destruct Hgo as [_ Hbody].
    unfold hits_body in Hbody. rewrite Hpu in Hbody. simpl in Hbody.
    apply orb_false_iff in Hbody. destruct Hbody as [Hsn _].
    apply mem_not_In in Hsn.
    destruct (pos_eqb nh (food_pos s)).
    + constructor; assumption.
    + constructor; [|apply NoDup_removelast; exact Hnd].
      intros Hin. apply Hsn. apply In_removelast. exact Hin.
  - destruct H as (-> & _). exact Hnd.
Qed.

Lemma tick_keeps_snake_duplicate_free_witness :
  NoDup (snake bite_before) /\ powerup_active bite_before = false /\
  game_over bite_after = false /\ NoDup (snake bite_after).
Proof.
  assert (Hnd : NoDup (snake bite_before)).
  { simpl. constructor; [intros [] | constructor]. }
  assert (H : exists g', tick 1 (holding K_RIGHT) bite_before
                (rng_after_particles [22; 15; normal_roll]) = Ok bite_after g')
    by (eexists; vm_compute; reflexivity).
  destruct H as [g' H].
  split; [exact Hnd|]. split; [reflexivity|]. split; [reflexivity|].
  exact (tick_keeps_snake_duplicate_free _ _ _ _ _ _ Hnd eq_refl H eq_refl).
Defined.

(** ** Restart *)



(** ** Level and obstacles *)

Lemma reachable_after_level_ups s :
  reachable s -> exists n, after_level_ups n s.
Proof.
  induction 1 as [fuel hs so g s g' H | fuel env g s s' g' _ [n IH] H].
  - exists O. eapply ups_init; eauto.
  - eexists. eapply ups_step; eauto.
Qed.

(** C7, as stated, fails on the obstacle count: after one level-up from
    level 1 there are two obstacles, whereas the sum of the levels 2..1 is
    zero. *)
Lemma one_level_up_two_obstacles :
  after_level_ups 1 level_two /\
  List.length (obstacles level_two) = 2%nat /\
  sum_levels (Z.of_nat 1) = 0 /\
  Z.of_nat (List.length (obstacles level_two)) <> sum_levels (Z.of_nat 1).
Proof.
  split.
  - apply (boot_sound 1 0 false (rng_of_pair 21 15) level_inputs).
    vm_compute. reflexivity.
  - split; [reflexivity|]. split; [reflexivity|]. discriminate.
Qed.

(** C7, amended: in every reachable state the level is [score // 10 + 1];
    a tick never lowers it (only a restart puts it back to 1), and a tick
    that raises it appends as many obstacles as the new level; after [n]
    level-ups from level 1 the level is [n + 1] and the number of obstacles
    is the sum of the levels [2..n+1]. *)
Theorem level_and_obstacle_count s :
  reachable s ->
  level s = score s / 10 + 1 /\
  (exists n, after_level_ups n s) /\
  (forall n, after_level_ups n s ->
     level s = Z.of_nat n + 1 /\
     Z.of_nat (List.length (obstacles s)) = sum_levels (Z.of_nat n + 1)) /\
  (forall fuel env g s' g',
     tick fuel env s g = Ok s' g' ->
     level s <= level s' /\
     (level s < level s' ->
        List.length (obstacles s') =
          (List.length (obstacles s) + Z.to_nat (level s'))%nat)).
Proof.
  intros Hr. pose proof (reachable_Inv s Hr) as HI.
  split; [apply HI|].
  split; [apply reachable_after_level_ups; exact Hr|].
  split.
  - intros n Hn. pose proof (after_level_ups_level n s Hn) as Hl.
    split; [exact Hl|]. rewrite <- Hl. apply HI.
  - intros fuel env g s' g' Ht.
    destruct (tick_Inv _ _ _ _ _ _ HI Ht) as (_ & Hl & Hob).
    split; [lia | exact Hob].
Qed.

Lemma level_and_obstacle_count_witness :
  reachable level_two /\ score level_two = 10 /\ level level_two = 2 /\
  Z.of_nat (List.length (obstacles level_two)) = sum_levels 2.
Proof.
  assert (Hn : after_level_ups 1 level_two).
  { apply (boot_sound 1 0 false (rng_of_pair 21 15) level_inputs).
    vm_compute. reflexivity. }
  pose proof (after_level_ups_reachable 1 level_two Hn) as Hr.
  split; [exact Hr|]. split; [reflexivity|].
  destruct (level_and_obstacle_count level_two Hr) as (_ & _ & H & _).
  destruct (H 1%nat Hn) as (Hl & Ho).
  split; [exact Hl | exact Ho].
Defined.

(** ** Run invariants: the proof principle *)

(** A property holds in every reachable state as soon as it holds at
    start-up, does not depend on [paused], [show_grid] and [waiting], and is
    kept by a tick and by a restart. *)
Lemma reachable_invariant (P : State -> Prop) :
  (forall fuel hs so g s g', init fuel hs so g = Ok s g' -> P s) ->
  (forall s b, P s -> P (set_paused b s)) ->
  (forall s b, P s -> P (set_show_grid b s)) ->
  (forall s, P s -> waiting s = true -> P (set_waiting false s)) ->
  (forall fuel env g s s' g',
      P s -> waiting s = false -> game_over s = false ->
      tick fuel env s g = Ok s' g' -> P s') ->
  (forall fuel g s s' g',
      P s -> waiting s = false -> game_over s = true ->
      restart fuel s g = Ok s' g' -> P s') ->
  forall s, reachable s -> P s.
Proof.
  intros Hinit Hpa Hsg Hwa Htick Hrestart s Hr.
  induction Hr as [fuel hs so g s g' H | fuel env g s s' g' _ IH H].
  - eapply Hinit; eauto.
  - unfold step in H. destruct (waiting s) eqn:Ew.
    + inversion H as [H1]. clear H. unfold menu_iteration in H1.
      destruct (existsb is_quit (events env)); [discriminate|].
      destruct (keys env K_SPACE).
      * inversion H1; subst. apply Hwa; assumption.
      * destruct (get_direction env s) as [d s0] eqn:E.
        assert (Hs0 : s0 = set_paused (paused s0) s).
        { pose proof (get_direction_paused env s) as Q. rewrite E in Q.
          exact Q. }
        assert (P s0) by (rewrite Hs0; apply Hpa; exact IH).
        assert (waiting s0 = true) by (rewrite Hs0; exact Ew).
        destruct (negb (pos_eqb d (0, 0))); inversion H1; subst s'; auto.
    + unfold frame in H.
      destruct (handle_events (events env) s) as [s0|] eqn:Ev; [|discriminate].
      assert (H0 : P s0 /\ waiting s0 = false).
      { clear H. revert s s0 IH Ew Ev.
        induction (events env) as [|e evs IHe]; intros s s0 IH Ew Ev;
          simpl in Ev.
        - inversion Ev; subst; auto.
        - destruct e as [|k|]; [discriminate| |eapply IHe; eauto].
          eapply IHe; [| |exact Ev].
          + destruct k; auto.
          + destruct k; exact Ew. }
      destruct H0 as [HP0 Hw0].
      destruct (paused s0); [inversion H; subst; exact HP0|].
      apply bind_Ok in H. destruct H as (s1 & g1 & Ht & H).
      apply bind_Ok in H. destruct H as (s2 & g2 & Hre & H).
      inversion H; subst s2 g2; clear H.
      assert (H1 : P s1 /\ waiting s1 = false).
      { destruct (game_over s0) eqn:Eg; simpl in Ht.
        - inversion Ht; subst; auto.
        - split; [eapply Htick; eauto|].
          apply tick_cases in Ht.
          destruct Ht as [(_ & -> & _) | (nh & s2 & g2 & s3 & _ & Hmid & Hlv & ->)].
          + unfold powerup_countdown.
            rewrite (polled_eq env s0).
            destruct (powerup_active _); [destruct (_ <=? 0)|]; exact Hw0.
          + cbv zeta in Hmid.
            assert (W2 : waiting s2 = false).
            { destruct (pos_eqb nh (food_pos s0)).
              - destruct Hmid as (q & ft & _ & ->). simpl.
                unfold after_bite, save_high_score. simpl.
                rewrite (polled_eq env s0). simpl.
                destruct (_ >? _); simpl; destruct (food_type s0); exact Hw0.
              - destruct Hmid as (-> & _). simpl.
                rewrite (polled_eq env s0). exact Hw0. }
            apply level_progression_Ok in Hlv.
            assert (W3 : waiting s3 = false).
            { destruct Hlv as [(_ & -> & _) | (_ & ps & _ & ->)]; exact W2. }
            unfold powerup_countdown.
            destruct (powerup_active s3); [destruct (_ <=? 0)|]; exact W3. }
      destruct H1 as [HP1 Hw1].
      destruct (game_over s1 && keys env K_r) eqn:Er.
      * apply andb_true_iff in Er. destruct Er as [Eg _].
        eapply Hrestart; eauto.
      * inversion Hre; subst. exact HP1.
Qed.

Lemma random_food_position_cell fuel snake obstacles g p g' :
  random_food_position fuel snake obstacles g = Ok p g' ->
  free snake obstacles p = true /\ on_board p /\ aligned p.
Proof.
  intros H. apply random_food_position_Ok in H.
  destruct H as (Hf & k & _ & ->). split; [exact Hf|].
  unfold on_board, aligned, draw.
  pose proof (cell_of_raw_on_board (g (2 * k)%nat) (g (S (2 * k)))) as B.
  cbv zeta in B. tauto.
Qed.

Lemma add_obstacles_placed n fuel :
  forall s g s' g',
    add_obstacles n fuel s g = Ok s' g' ->
    exists ps, List.length ps = n /\ placed (snake s) (obstacles s) ps /\
      s' = set_obstacles (obstacles s ++ ps) s.
Proof.
  induction n as [|n IH]; intros s g s' g' H; simpl in H.
  - inversion H; subst. exists []. split; [reflexivity|]. split; [exact I|].
    rewrite app_nil_r. destruct s'; reflexivity.
  - apply bind_Ok in H. destruct H as (p & g1 & Hp & H).
    apply random_food_position_cell in Hp. destruct Hp as (Hf & Hb & Ha).
    apply IH in H. destruct H as (ps & Hlen & Hpl & ->).
    exists (p :: ps). split; [simpl; congruence|].
    split; [simpl; auto|].
    unfold set_obstacles; simpl. rewrite <- app_assoc. reflexivity.
Qed.

Lemma level_progression_placed fuel s g s' g' :
  level_progression fuel s g = Ok s' g' ->
  (score s / 10 + 1 <= level s /\ s' = s /\ g' = g) \/
  (level s < score s / 10 + 1 /\
   exists ps, List.length ps = Z.to_nat (score s / 10 + 1) /\
     placed (snake s) (obstacles s) ps /\
     s' = set_obstacles (obstacles s ++ ps)
            (set_FPS (FPS s + (1 # 2))%Q (set_level (score s / 10 + 1) s))).
Proof.
  unfold level_progression. intros H.
  destruct (score s / 10 + 1 >? level s) eqn:E.
  - right. apply Z.gtb_lt in E. split; [lia|].
    apply add_obstacles_placed in H. exact H.
  - left. inversion H; subst.
    assert (~ (level s' < score s' / 10 + 1)) by (rewrite <- Z.gtb_lt; congruence).
    repeat split; lia.
Qed.

Lemma eat_food_cell fuel s g s' g' :
  eat_food fuel s g = Ok s' g' ->
  exists p ft,
    free (snake s) (obstacles s) p = true /\ on_board p /\ aligned p /\
    s' = set_food_type ft (set_food_pos p (after_bite s)).
Proof.
  unfold eat_food. intros H.
  apply bind_Ok in H. destruct H as ([] & g1 & _ & H).
  change (match food_type (save_high_score (score (set_score (score s + 1) s))
                             (set_score (score s + 1) s)) with
          | normal => save_high_score (score (set_score (score s + 1) s))
                        (set_score (score s + 1) s)
          | power => set_FPS 10%Q (set_powerup_timer 105 (set_powerup_active true
                       (save_high_score (score (set_score (score s + 1) s))
                          (set_score (score s + 1) s))))
          end) with (after_bite s) in H.
  apply bind_Ok in H. destruct H as (p & g2 & Hp & H).
  apply bind_Ok in H. destruct H as (k & g3 & _ & H).
  inversion H; subst; clear H.
  exists p, (if lt_one_tenth k then power else normal).
  destruct (after_bite_fields s) as (E1 & E2 & _).
  rewrite E1, E2 in Hp.
  apply random_food_position_cell in Hp.
  destruct Hp as (Hf & Hb & Ha). auto.
Qed.

(** Every shape of the state a tick can return, in terms of the state it
    started from. *)
Lemma tick_forms fuel env s g s' g' :
  tick fuel env s g = Ok s' g' ->
  (tick_new_head env s = None /\ s' = powerup_countdown (polled env s))
  \/
  (exists nh s2 s3,
      tick_new_head env s = Some nh /\
      let s1 := set_snake (nh :: snake s)
                  (set_game_over (hits_wall nh || hits_body s nh || game_over s)
                     (polled env s)) in
      ((pos_eqb nh (food_pos s) = true /\
        exists q ft, free (nh :: snake s) (obstacles s) q = true /\
           on_board q /\ aligned q /\
           s2 = set_food_type ft (set_food_pos q (after_bite s1)))
       \/
       (pos_eqb nh (food_pos s) = false /\
        s2 = set_snake (nh :: removelast (snake s)) s1)) /\
      ((score s2 / 10 + 1 <= level s2 /\ s3 = s2)
       \/
       (level s2 < score s2 / 10 + 1 /\
        exists ps, List.length ps = Z.to_nat (score s2 / 10 + 1) /\
          placed (snake s2) (obstacles s2) ps /\
          s3 = set_obstacles (obstacles s2 ++ ps)
                 (set_FPS (FPS s2 + (1 # 2))%Q
                    (set_level (score s2 / 10 + 1) s2)))) /\
      s' = powerup_countdown s3).
Proof.
  rewrite tick_unfold. unfold tick_new_head.
  destruct (polled_fields env s) as (Hsn & Hfp & _ & Hgo & _ & Hob & _).
  destruct (pos_eqb (direction (polled env s)) (0, 0)) eqn:Ed; simpl.
  - intros H. inversion H; subst. left. auto.
  - destruct (snake s) as [|h t] eqn:Es.
    + unfold move. rewrite Hsn. discriminate.
    + rewrite (move_unfold fuel (polled env s) h t) by congruence.
      cbv zeta. rewrite hits_body_polled, Hsn, Hfp, Hgo.
      set (nh := next_head h (direction (polled env s))).
      set (s1 := set_snake (nh :: h :: t) _).
      destruct (bind _ _ g) as [s3 g3| |] eqn:Hb; try discriminate.
      intros H. inversion H; subst s' g'. clear H.
      apply bind_Ok in Hb. destruct Hb as (s2 & g2 & Hmid & Hlv).
      right. exists nh, s2, s3. split; [reflexivity|].
      cbv zeta. fold s1. split; [|split; [|reflexivity]].
      * destruct (pos_eqb nh (food_pos s)).
        -- left. split; [reflexivity|].
           apply eat_food_cell in Hmid.
           destruct Hmid as (q & ft & Hq & Hb & Ha & ->).
           exists q, ft. subst s1. simpl in Hq. rewrite Hob in Hq. auto.
        -- right. inversion Hmid; subst. auto.
      * apply level_progression_placed in Hlv.
        destruct Hlv as [(Hle & -> & _) | (Hlt & ps & Hlen & Hpl & ->)];
          [left; auto | right; split; [exact Hlt|]; exists ps; auto].
Qed.

(** Splits a hypothesis [tick ... = Ok s' g'] into the shapes of
    [tick_forms], naming the pieces. *)
Ltac tick_shapes H :=
  apply tick_forms in H;
  let nh := fresh "nh" in
  let s2 := fresh "s2" in
  let s3 := fresh "s3" in
  let Hhead := fresh "Hhead" in
  let Hmid := fresh "Hmid" in
  let Hlv := fresh "Hlv" in
  let Heat := fresh "Heat" in
  let q := fresh "q" in
  let ft := fresh "ft" in
  let Hq := fresh "Hq" in
  let Hqb := fresh "Hqb" in
  let Hqa := fresh "Hqa" in
  let ps := fresh "ps" in
  let Hlen := fresh "Hlen" in
  let Hpl := fresh "Hpl" in
  let Hup := fresh "Hup" in
  destruct H as [(Hhead & ->) | (nh & s2 & s3 & Hhead & Hmid & Hlv & ->)];
  [ | cbv zeta in Hmid;
      destruct Hmid as [(Heat & q & ft & Hq & Hqb & Hqa & ->) | (Heat & ->)];
      destruct Hlv as [(Hup & ->) | (Hup & ps & Hlen & Hpl & ->)] ].

Lemma init_food fuel hs so g s g' :
  init fuel hs so g = Ok s g' ->
  free (snake s) [] (food_pos s) = true /\ on_board (food_pos s) /\
  aligned (food_pos s) /\ direction s = (0, 0) /\ food_type s = normal /\
  powerup_active s = false /\ FPS s = 7%Q /\ paused s = false.
Proof.
  unfold init. intros H.
  apply bind_Ok in H. destruct H as (p & g1 & Hp & H).
  inversion H; subst; simpl.
  apply random_food_position_cell in Hp. tauto.
Qed.

Lemma restart_food fuel s g s' g' :
  restart fuel s g = Ok s' g' ->
  on_board (food_pos s') /\ aligned (food_pos s') /\
  waiting s' = waiting s /\ ser s' = ser s /\
  powerup_timer s' = powerup_timer s.
Proof.
  unfold restart. intros H.
  apply bind_Ok in H. destruct H as (p & g1 & Hp & H).
  inversion H; subst; clear H. simpl.
  apply random_food_position_cell in Hp. tauto.
Qed.

(** ** Run invariants *)

(** X1: in every reachable state the snake has exactly [score + 1] cells. *)
Theorem snake_length_is_score_plus_one s :
  reachable s -> Z.of_nat (List.length (snake s)) = score s + 1.
Proof.
  revert s. apply reachable_invariant; try (intros; assumption).
  - intros fuel hs so g s g' H. apply init_fields in H.
    destruct H as (-> & -> & _). reflexivity.
  - intros fuel env g s s' g' IH _ _ H.
    apply tick_summary in H. destruct H as (_ & H).
    unfold tick_new_head in H.
    destruct (pos_eqb (direction (polled env s)) (0, 0)).
    + destruct H as (-> & -> & _). exact IH.
    + destruct (snake s) as [|h t] eqn:Es.
      * destruct H as (-> & -> & _). exact IH.
      * destruct H as (-> & -> & _).
        destruct (pos_eqb _ (food_pos s)).
        -- simpl List.length in *. lia.
        -- change (Z.of_nat (S (List.length (removelast (h :: t))))
                   = score s + 1).
           rewrite length_removelast_cons. simpl List.length in IH. lia.
  - intros fuel g s s' g' _ _ _ H. apply restart_fields in H.
    destruct H as (-> & _ & _ & -> & _). reflexivity.
Qed.

Lemma snake_length_is_score_plus_one_witness :
  reachable level_two /\
  Z.of_nat (List.length (snake level_two)) = score level_two + 1.
Proof.
  assert (Hr : reachable level_two).
  { apply (after_level_ups_reachable 1).
    apply (boot_sound 1 0 false (rng_of_pair 21 15) level_inputs).
    vm_compute. reflexivity. }
  split; [exact Hr|].
  exact (snake_length_is_score_plus_one level_two Hr).
Defined.

(** X2: in every reachable state the food lies on the board, on the cell
    grid, and on no cell of the snake. *)
Theorem food_is_never_under_the_snake s :
  reachable s ->
  ~ In (food_pos s) (snake s) /\ on_board (food_pos s) /\ aligned (food_pos s).
Proof.
  revert s. apply reachable_invariant; try (intros; assumption).
  - intros fuel hs so g s g' H. apply init_food in H.
    destruct H as (Hf & Hb & Ha & _).
    apply free_spec in Hf. tauto.
  - intros fuel env g s s' g' (Hni & Hb & Ha) _ _ H.
    destruct (polled_fields env s) as (Psn & Pfp & _).
    tick_shapes H.
    + destruct (powerup_countdown_fields (polled env s))
        as (-> & _ & _ & _ & _ & _ & -> & _).
      rewrite Psn, Pfp. auto.
    + destruct (powerup_countdown_fields
                  (set_food_type ft (set_food_pos q (after_bite
                     (set_snake (nh :: snake s)
                        (set_game_over
                           (hits_wall nh || hits_body s nh || game_over s)
                           (polled env s)))))))
        as (-> & _ & _ & _ & _ & _ & -> & _).
      simpl.
      match goal with |- context [after_bite ?x] =>
        destruct (after_bite_fields x) as (-> & _) end.
      simpl. apply free_spec in Hq. simpl in Hq. tauto.
    + match goal with |- context [powerup_countdown ?x] =>
        destruct (powerup_countdown_fields x)
          as (-> & _ & _ & _ & _ & _ & -> & _) end.
      simpl.
      match goal with |- context [after_bite ?x] =>
        destruct (after_bite_fields x) as (-> & _) end.
      simpl. apply free_spec in Hq. simpl in Hq. tauto.
    + match goal with |- context [powerup_countdown ?x] =>
        destruct (powerup_countdown_fields x)
          as (-> & _ & _ & _ & _ & _ & -> & _) end.
      simpl. rewrite Pfp. split; [|auto].
      intros [E|Hin].
      * apply pos_eqb_neq in Heat. congruence.
      * apply Hni. apply In_removelast. exact Hin.
    + match goal with |- context [powerup_countdown ?x] =>
        destruct (powerup_countdown_fields x)
          as (-> & _ & _ & _ & _ & _ & -> & _) end.
      simpl. rewrite Pfp. split; [|auto].
      intros [E|Hin].
      * apply pos_eqb_neq in Heat. congruence.
      * apply Hni. apply In_removelast. exact Hin.
  - intros fuel g s s' g' _ _ _ H.
    destruct (restart_food _ _ _ _ _ H) as (Hb & Ha & _).
    apply restart_fields in H.
    destruct H as (-> & _ & _ & _ & _ & _ & _ & _ & _ & _ & _ & Hf).
    apply free_spec in Hf. tauto.
Qed.

Lemma level_two_reachable : reachable level_two.
Proof.
  apply (after_level_ups_reachable 1).
  apply (boot_sound 1 0 false (rng_of_pair 21 15) level_inputs).
  vm_compute. reflexivity.
Qed.

Lemma overlap_before_reachable : reachable overlap_before.
Proof.
  apply (after_level_ups_reachable 0).
  apply (boot_sound 1 0 false (rng_of_pair 21 15) power_inputs). reflexivity.
Qed.

Lemma food_is_never_under_the_snake_witness :
  reachable overlap_before /\
  ~ In (food_pos overlap_before) (snake overlap_before) /\
  on_board (food_pos overlap_before) /\ aligned (food_pos overlap_before).
Proof.
  split; [exact overlap_before_reachable|].
  exact (food_is_never_under_the_snake overlap_before
           overlap_before_reachable).
Defined.

Lemma placed_NoDup sn ps :
  forall obs, placed sn obs ps -> NoDup obs -> NoDup (obs ++ ps).
Proof.
  induction ps as [|p rest IH]; intros obs Hpl Hnd; simpl in Hpl.
  - rewrite app_nil_r. exact Hnd.
  - destruct Hpl as (Hf & _ & _ & Hrest).
    replace (obs ++ p :: rest) with ((obs ++ [p]) ++ rest)
      by (rewrite <- app_assoc; reflexivity).
    apply IH; [exact Hrest|].
    apply free_spec in Hf. destruct Hf as [_ Hno].
    apply NoDup_app; [exact Hnd | constructor; [intros [] | constructor] |].
    intros x Hx [<-|[]]. exact (Hno Hx).
Qed.

Lemma placed_Forall sn ps :
  forall obs, placed sn obs ps ->
    Forall on_board ps /\ Forall aligned ps /\ disjoint sn ps.
Proof.
  induction ps as [|p rest IH]; intros obs Hpl; simpl in Hpl.
  - repeat split; try constructor. intros x _ [].
  - destruct Hpl as (Hf & Hb & Ha & Hrest).
    destruct (IH _ Hrest) as (B & A & D).
    apply free_spec in Hf. destruct Hf as [Hns _].
    repeat split; try (constructor; assumption).
    intros x Hx [<-|Hin]; [exact (Hns Hx) | exact (D x Hx Hin)].
Qed.

(** X3: in every reachable state the obstacles are pairwise distinct, on
    the board and on the cell grid. *)
Theorem obstacles_are_distinct_cells s :
  reachable s ->
  NoDup (obstacles s) /\ Forall on_board (obstacles s) /\
  Forall aligned (obstacles s).
Proof.
  revert s. apply reachable_invariant; try (intros; assumption).
  - intros fuel hs so g s g' H. apply init_fields in H.
    destruct H as (_ & _ & _ & -> & _). repeat split; constructor.
  - intros fuel env g s s' g' (Hnd & Hb & Ha) _ _ H.
    destruct (polled_fields env s) as (_ & _ & _ & _ & _ & Pob & _).
    tick_shapes H;
      match goal with |- context [powerup_countdown ?x] =>
        destruct (powerup_countdown_fields x)
          as (_ & _ & _ & -> & _) end;
      simpl;
      try match goal with |- context [after_bite ?x] =>
        destruct (after_bite_fields x) as (_ & -> & _) end;
      simpl; rewrite ?Pob; auto.
    + simpl in Hpl.
      match type of Hpl with context [after_bite ?x] =>
        destruct (after_bite_fields x) as (_ & E & _) end.
      rewrite E in Hpl. simpl in Hpl. rewrite Pob in Hpl.
      destruct (placed_Forall _ _ _ Hpl) as (B & A & _).
      split; [eapply placed_NoDup; eauto|].
      split; apply Forall_app; auto.
    + simpl in Hpl. rewrite Pob in Hpl.
      destruct (placed_Forall _ _ _ Hpl) as (B & A & _).
      split; [eapply placed_NoDup; eauto|].
      split; apply Forall_app; auto.
  - intros fuel g s s' g' _ _ _ H. apply restart_fields in H.
    destruct H as (_ & _ & _ & _ & _ & _ & -> & _). repeat split; constructor.
Qed.

Lemma obstacles_are_distinct_cells_witness :
  reachable level_two /\ obstacles level_two = [(0, 0); (20, 0)] /\
  NoDup (obstacles level_two) /\ Forall on_board (obstacles level_two) /\
  Forall aligned (obstacles level_two).
Proof.
  split; [exact level_two_reachable|]. split; [reflexivity|].
  exact (obstacles_are_distinct_cells level_two level_two_reachable).
Defined.

Lemma Forall_removelast (P : Pos -> Prop) l :
  Forall P l -> Forall P (removelast l).
Proof.
  rewrite !Forall_forall. intros H x Hx. apply H. apply In_removelast.
  exact Hx.
Qed.

Lemma hits_wall_on_board p : hits_wall p = false <-> on_board p.
Proof.
  unfold hits_wall, on_board.
  rewrite !orb_false_iff, !Z.ltb_ge, !Z.geb_leb, !Z.leb_gt. lia.
Qed.

Lemma next_head_aligned h d : aligned h -> aligned (next_head h d).
Proof.
  unfold aligned, next_head, CELL_SIZE. simpl. intros [A B].
  rewrite !Z.mod_add by lia. auto.
Qed.

Lemma tick_new_head_spec env s nh :
  tick_new_head env s = Some nh ->
  direction (polled env s) <> (0, 0) /\
  exists h t, snake s = h :: t /\ nh = next_head h (direction (polled env s)).
Proof.
  unfold tick_new_head.
  destruct (pos_eqb (direction (polled env s)) (0, 0)) eqn:E; [discriminate|].
  apply pos_eqb_neq in E.
  destruct (snake s) as [|h t]; [discriminate|].
  intros H. inversion H; subst. eauto.
Qed.

Lemma centre_on_grid :
  aligned (WIDTH / 2, HEIGHT / 2) /\ on_board (WIDTH / 2, HEIGHT / 2).
Proof.
  unfold aligned, on_board. cbn. repeat split; (reflexivity || discriminate).
Qed.

(** X4: in every reachable state all cells of the snake are on the cell
    grid, and as long as the run is not over they are all on the board. *)
Theorem snake_stays_on_the_grid s :
  reachable s ->
  Forall aligned (snake s) /\
  (game_over s = false -> Forall on_board (snake s)).
Proof.
  revert s. apply reachable_invariant; try (intros; assumption).
  - intros fuel hs so g s g' H. apply init_fields in H.
    destruct H as (-> & _). destruct centre_on_grid.
    split; [|intros _]; constructor; auto.
  - intros fuel env g s s' g' (Ha & Hb) _ Hgo H.
    specialize (Hb Hgo).
    apply tick_summary in H. destruct H as (_ & H).
    destruct (tick_new_head env s) as [nh|] eqn:Hh.
    + destruct H as (-> & _ & -> & _).
      apply tick_new_head_spec in Hh.
      destruct Hh as (_ & h & t & Es & ->).
      assert (Hah : aligned (next_head h (direction (polled env s)))).
      { apply next_head_aligned. rewrite Es in Ha. inversion Ha; auto. }
      split.
      * destruct (pos_eqb _ _); constructor; auto.
        apply Forall_removelast; exact Ha.
      * intros Hg. apply orb_false_iff in Hg. destruct Hg as [Hg _].
        apply orb_false_iff in Hg. destruct Hg as [Hw _].
        apply hits_wall_on_board in Hw.
        destruct (pos_eqb _ _); constructor; auto.
        apply Forall_removelast; exact Hb.
    + destruct H as (-> & _ & _ & _ & _ & -> & _). auto.
  - intros fuel g s s' g' _ _ _ H. apply restart_fields in H.
    destruct H as (-> & _). destruct centre_on_grid.
    split; [|intros _]; constructor; auto.
Qed.

Lemma snake_stays_on_the_grid_witness :
  reachable overlap_before /\ Forall aligned (snake overlap_before) /\
  (game_over overlap_before = false -> Forall on_board (snake overlap_before)).
Proof.
  split; [exact overlap_before_reachable|].
  exact (snake_stays_on_the_grid overlap_before overlap_before_reachable).
Defined.

Lemma joystick_direction_axis x y b s :
  axis_direction (fst (joystick_direction x y b s)).
Proof.
  unfold joystick_direction, axis_direction. cbn [fst].
  destruct (Z.abs (x - joy_center_x) >? DEAD_ZONE);
    destruct (Z.abs (y - joy_center_y) >? DEAD_ZONE);
    destruct (x - joy_center_x >? 0); destruct (y - joy_center_y >? 0);
    simpl; auto 10.
Qed.

Lemma get_direction_axis env s :
  axis_direction (direction s) -> axis_direction (fst (get_direction env s)).
Proof.
  intros Hd. unfold get_direction. destruct (ser s).
  - destruct (serial_read env) as [|raw]; [exact Hd|].
    destruct (strip raw); [exact Hd|].
    destruct (_ =? 3)%nat; [|exact Hd].
    destruct (py_int _); [|exact Hd].
    destruct (py_int _); [|exact Hd].
    destruct (py_int _); [|exact Hd].
    apply joystick_direction_axis.
  - cbn [fst]. unfold axis_direction.
    destruct (keys env K_LEFT); [auto 10|].
    destruct (keys env K_RIGHT); [auto 10|].
    destruct (keys env K_UP); [auto 10|].
    destruct (keys env K_DOWN); [auto 10|]. exact Hd.
Qed.

Lemma connected_removelast l : connected l -> connected (removelast l).
Proof.
  induction l as [|a l IH]; [auto|].
  destruct l as [|b l]; [auto|].
  change (removelast (a :: b :: l)) with (a :: removelast (b :: l)).
  intros [Hab Hc]. specialize (IH Hc).
  destruct l as [|c l]; [exact I|].
  change (removelast (b :: c :: l)) with (b :: removelast (c :: l)) in *.
  split; assumption.
Qed.

Lemma next_head_adjacent h d :
  axis_direction d -> d <> (0, 0) -> adjacent (next_head h d) h.
Proof.
  unfold adjacent, next_head, CELL_SIZE.
  intros [->|[->|[->|[->| ->]]]] Hd; [congruence| | | |]; simpl; lia.
Qed.

(** X5: in every reachable state the direction is one of the four unit
    vectors or zero (never a diagonal), whatever the input source returns
    next is such a vector too, and consecutive cells of the snake share a
    side. *)
Theorem snake_moves_one_cell_along_an_axis s :
  reachable s ->
  axis_direction (direction s) /\
  (forall env, axis_direction (fst (get_direction env s))) /\
  connected (snake s).
Proof.
  intros Hr.
  assert (H : axis_direction (direction s) /\ connected (snake s)).
  { revert s Hr. apply reachable_invariant; try (intros; assumption).
    - intros fuel hs so g s g' H.
      destruct (init_food _ _ _ _ _ _ H) as (_ & _ & _ & -> & _).
      apply init_fields in H. destruct H as (-> & _).
      split; [left; reflexivity | exact I].
    - intros fuel env g s s' g' (Hd & Hc) _ _ H.
      assert (Hd' : axis_direction (direction (polled env s))).
      { rewrite polled_direction. destruct (accepts _ _); [|exact Hd].
        apply get_direction_axis. exact Hd. }
      apply tick_summary in H. destruct H as (-> & H).
      split; [exact Hd'|].
      destruct (tick_new_head env s) as [nh|] eqn:Hh.
      + destruct H as (-> & _).
        apply tick_new_head_spec in Hh.
        destruct Hh as (Hnz & h & t & Es & ->).
        pose proof (next_head_adjacent h _ Hd' Hnz) as Hadj.
        destruct (pos_eqb _ _).
        * rewrite Es in *. split; assumption.
        * pose proof (connected_removelast _ Hc) as Hc'.
          rewrite Es in *.
          destruct t as [|b t]; [exact I|].
          change (removelast (h :: b :: t)) with (h :: removelast (b :: t))
            in *.
          split; assumption.
      + destruct H as (-> & _). exact Hc.
    - intros fuel g s s' g' _ _ _ H. apply restart_fields in H.
      destruct H as (-> & -> & _). split; [left; reflexivity | exact I]. }
  destruct H as [Hd Hc]. split; [exact Hd|]. split; [|exact Hc].
  intros env. apply get_direction_axis. exact Hd.
Qed.

Lemma snake_moves_one_cell_along_an_axis_witness :
  reachable overlap_before /\ axis_direction (direction overlap_before) /\
  connected (snake overlap_before).
Proof.
  split; [exact overlap_before_reachable|].
  destruct (snake_moves_one_cell_along_an_axis overlap_before
              overlap_before_reachable) as (Hd & _ & Hc).
  split; assumption.
Defined.

(** ** Collisions and ticks without food *)

(** X6: a tick that starts with the run not over ends it exactly when the
    snake moves and the new head is off the board, or the power-up is
    inactive and the new head is on a cell of the snake or on an obstacle. *)
Theorem tick_ends_run_exactly_on_collision fuel env s g s' g' :
  tick fuel env s g = Ok s' g' -> game_over s = false ->
  (game_over s' = true <->
   exists nh, tick_new_head env s = Some nh /\
     (~ on_board nh \/
      (powerup_active s = false /\ (In nh (snake s) \/ In nh (obstacles s))))).
Proof.
  intros H Hgo. apply tick_summary in H. destruct H as (_ & H).
  destruct (tick_new_head env s) as [nh|].
  - destruct H as (_ & _ & -> & _). rewrite Hgo, orb_false_r.
    unfold hits_body.
    rewrite orb_true_iff, andb_true_iff, negb_true_iff, orb_true_iff,
      !mem_In.
    pose proof (hits_wall_on_board nh) as W.
    split.
    + intros [Hw|Hb]; exists nh; (split; [reflexivity|]); [left|right; exact Hb].
      intros Hon. apply W in Hon. congruence.
    + intros (nh' & E & [Hoff|Hb]); inversion E; subst nh'; [left|right; exact Hb].
      destruct (hits_wall nh); [reflexivity|].
      exfalso. apply Hoff. apply W. reflexivity.
  - destruct H as (_ & _ & _ & _ & _ & -> & _). rewrite Hgo.
    split; [discriminate|]. intros (nh & E & _). discriminate.
Qed.

Lemma tick_ends_run_exactly_on_collision_witness :
  game_over wall_before = false /\ game_over wall_after = true /\
  exists nh, tick_new_head (holding K_RIGHT) wall_before = Some nh /\
    (~ on_board nh \/
     (powerup_active wall_before = false /\
      (In nh (snake wall_before) \/ In nh (obstacles wall_before)))).
Proof.
  split; [reflexivity|]. split; [reflexivity|].
  exact (proj1 (tick_ends_run_exactly_on_collision 1 (holding K_RIGHT)
                  wall_before zero_rng wall_after zero_rng eq_refl eq_refl)
           eq_refl).
Defined.

Lemma tick_no_food_Ok fuel env s g nh :
  tick_new_head env s = Some nh ->
  pos_eqb nh (food_pos s) = false ->
  score s / 10 + 1 <= level s ->
  exists s', tick fuel env s g = Ok s' g.
Proof.
  intros Hnh Hfood Hlv.
  destruct (polled_fields env s)
    as (Psn & Pfp & Psc & Pgo & Plv & _).
  unfold tick_new_head in Hnh.
  destruct (pos_eqb (direction (polled env s)) (0, 0)) eqn:Ed; [discriminate|].
  destruct (snake s) as [|h t] eqn:Es; [discriminate|].
  inversion Hnh as [Hnh']. clear Hnh.
  rewrite tick_unfold, Ed. cbn [negb].
  rewrite (move_unfold fuel (polled env s) h t) by congruence.
  cbv zeta. rewrite Hnh', Pfp, Hfood. unfold bind, ret.
  set (s2 := set_snake _ _).
  assert (E : level_progression fuel s2 g = Ok s2 g).
  { unfold level_progression.
    replace (score s2) with (score s) by (subst s2; simpl; congruence).
    replace (level s2) with (level s) by (subst s2; simpl; congruence).
    destruct (score s / 10 + 1 >? level s) eqn:E; [|reflexivity].
    apply Z.gtb_lt in E. lia. }
  rewrite E. eexists. reflexivity.
Qed.

(** X7: from a reachable state, a tick that does not put the head on the
    food always returns, whatever the generator and the iteration bound, and
    leaves the generator untouched: only eating draws random numbers. *)
Theorem tick_without_food_draws_nothing fuel env s g :
  reachable s -> eats_food env s = false ->
  exists s', tick fuel env s g = Ok s' g.
Proof.
  intros Hr Heat. destruct (reachable_Inv s Hr) as (_ & Hlv & _ & Hne).
  unfold eats_food in Heat.
  destruct (tick_new_head env s) as [nh|] eqn:Hh.
  - eapply tick_no_food_Ok; eauto. lia.
  - rewrite tick_unfold. unfold tick_new_head in Hh.
    destruct (pos_eqb (direction (polled env s)) (0, 0)).
    + simpl. eexists. reflexivity.
    + destruct (snake s); [congruence | discriminate].
Qed.

Lemma tick_without_food_draws_nothing_witness :
  reachable overlap_before /\
  eats_food (holding K_UP) overlap_before = false /\
  exists s', tick 0 (holding K_UP) overlap_before stuck_rng = Ok s' stuck_rng.
Proof.
  split; [exact overlap_before_reachable|]. split; [reflexivity|].
  exact (tick_without_food_draws_nothing 0 (holding K_UP) overlap_before
           stuck_rng overlap_before_reachable eq_refl).
Defined.

Lemma tick_new_obstacles fuel env s g s' g' :
  tick fuel env s g = Ok s' g' ->
  exists ps, obstacles s' = obstacles s ++ ps /\
    placed (snake s') (obstacles s) ps.
Proof.
  intros H.
  destruct (polled_fields env s) as (_ & _ & _ & _ & _ & Pob & _).
  tick_shapes H;
    match goal with |- context [powerup_countdown ?x] =>
      destruct (powerup_countdown_fields x) as (-> & _ & _ & -> & _) end.
  - exists []. rewrite app_nil_r. split; [exact Pob | exact I].
  - exists []. rewrite app_nil_r. simpl.
    match goal with |- context [after_bite ?x] =>
      destruct (after_bite_fields x) as (_ & -> & _) end.
    simpl. split; [exact Pob | exact I].
  - exists ps. simpl in *.
    match goal with |- context [after_bite ?x] =>
      destruct (after_bite_fields x) as (E1 & E2 & _) end.
    rewrite E1, E2 in *. simpl in *. rewrite Pob in *. auto.
  - exists []. rewrite app_nil_r. simpl. split; [exact Pob | exact I].
  - exists ps. simpl in *. rewrite Pob in *. auto.
Qed.

(** X8: from a state where no cell of the snake is on an obstacle and the
    power-up is inactive, a tick that does not end the run leaves the snake
    clear of all obstacles, the ones it adds included. *)
Theorem tick_keeps_snake_off_obstacles fuel env s g s' g' :
  disjoint (snake s) (obstacles s) -> powerup_active s = false ->
  tick fuel env s g = Ok s' g' -> game_over s' = false ->
  disjoint (snake s') (obstacles s').
Proof.
  intros Hd Hpu H Hgo.
  destruct (tick_new_obstacles _ _ _ _ _ _ H) as (ps & Eob & Hpl).
  destruct (placed_Forall _ _ _ Hpl) as (_ & _ & Hnew).
  apply tick_summary in H. destruct H as (_ & H).
  rewrite Eob. intros p Hp Hin. apply in_app_or in Hin.
  destruct Hin as [Hin|Hin]; [|exact (Hnew p Hp Hin)].
  destruct (tick_new_head env s) as [nh|].
  - destruct H as (Esn & _ & Ego & _).
    rewrite Ego in Hgo.
    apply orb_false_iff in Hgo. destruct Hgo as [Hgo _].
    apply orb_false_iff in Hgo. destruct Hgo as [_ Hb].
    unfold hits_body in Hb. rewrite Hpu in Hb. simpl in Hb.
    apply orb_false_iff in Hb. destruct Hb as [_ Hob].
    apply mem_not_In in Hob.
    rewrite Esn in Hp.
    destruct (pos_eqb nh (food_pos s)); destruct Hp as [<-|Hp]; auto.
    + exact (Hd p Hp Hin).
    + apply (Hd p); [apply In_removelast; exact Hp | exact Hin].
  - destruct H as (Esn & _). rewrite Esn in Hp. exact (Hd p Hp Hin).
Qed.

Lemma tick_keeps_snake_off_obstacles_witness :
  disjoint (snake level_two) (obstacles level_two) /\
  powerup_active level_two = false /\
  exists s', tick 1 (holding K_DOWN) level_two zero_rng = Ok s' zero_rng /\
    game_over s' = false /\ disjoint (snake s') (obstacles s').
Proof.
  assert (Hd : disjoint (snake level_two) (obstacles level_two)).
  { intros p Hp Hin. simpl in Hin. destruct Hin as [<-|[<-|[]]];
      simpl in Hp; repeat (destruct Hp as [Hp|Hp]; try discriminate);
      exact Hp. }
  split; [exact Hd|]. split; [reflexivity|].
  eexists. split; [reflexivity|]. split; [reflexivity|].
  exact (tick_keeps_snake_off_obstacles 1 (holding K_DOWN) level_two zero_rng
           _ zero_rng Hd eq_refl eq_refl eq_refl).
Defined.

(** ** The power-up clock and the tick rate *)

(** Brings a goal about the state returned by a tick down to the variables
    of the state it started from. *)
Ltac tick_fields env s :=
  rewrite (polled_eq env s) in *;
  unfold powerup_countdown, after_bite, save_high_score in *;
  cbn [snake direction food_pos food_type score game_over paused show_grid
       level obstacles powerup_active powerup_timer FPS high_score waiting
       ser set_snake set_direction set_food_pos set_food_type set_score
       set_game_over set_paused set_show_grid set_level set_obstacles
       set_powerup_active set_powerup_timer set_FPS set_high_score
       set_waiting] in *;
  repeat match goal with
         | |- context [if ?c then _ else _] =>
             match c with
             | context [if _ then _ else _] => fail 1
             | context [match _ with _ => _ end] => fail 1
             | _ => let E := fresh "E" in destruct c eqn:E
             end
         | |- context [match food_type ?x with _ => _ end] =>
             let E := fresh "Eft" in destruct (food_type x) eqn:E
         end;
  cbn [snake direction food_pos food_type score game_over paused show_grid
       level obstacles powerup_active powerup_timer FPS high_score waiting
       ser set_snake set_direction set_food_pos set_food_type set_score
       set_game_over set_paused set_show_grid set_level set_obstacles
       set_powerup_active set_powerup_timer set_FPS set_high_score
       set_waiting] in *.

(** X9: in every reachable state an active power-up has between 1 and 104
    ticks left. *)
Theorem powerup_clock_bounds s :
  reachable s -> powerup_active s = true -> 1 <= powerup_timer s <= 104.
Proof.
  revert s.
  apply (reachable_invariant
           (fun s => powerup_active s = true -> 1 <= powerup_timer s <= 104));
    try (intros ? ? HP; exact HP); try (intros ? HP ?; exact HP).
  - intros fuel hs so g s g' H. apply init_food in H.
    destruct H as (_ & _ & _ & _ & _ & -> & _). discriminate.
  - intros fuel env g s s' g' IH _ _ H.
    tick_shapes H; tick_fields env s; intros Ha;
      try discriminate;
      try match goal with
          | Hpa : powerup_active s = true |- _ => specialize (IH Hpa)
          end;
      repeat match goal with
             | E : (_ <=? _) = _ |- _ =>
                 first [apply Z.leb_le in E | apply Z.leb_gt in E]
             end; try lia; try congruence.
  - intros fuel g s s' g' _ _ _ H. apply restart_fields in H.
    destruct H as (_ & _ & _ & _ & _ & _ & _ & -> & _). discriminate.
Qed.

Lemma powerup_clock_bounds_witness :
  reachable overlap_before /\ powerup_active overlap_before = true /\
  1 <= powerup_timer overlap_before <= 104.
Proof.
  split; [exact overlap_before_reachable|]. split; [reflexivity|].
  exact (powerup_clock_bounds overlap_before overlap_before_reachable
           eq_refl).
Defined.



Lemma half_step (x : Q) (c k : Z) :
  (x == inject_Z c + (k # 2))%Q -> (x + (1 # 2) == inject_Z c + ((k + 1) # 2))%Q.
Proof.
  intros E. rewrite E. unfold Qeq, Qplus, inject_Z. simpl. lia.
Qed.

(** X11: in every reachable state the tick rate is [7 + k/2] while the
    power-up is inactive and [10 + k/2] while it is active, for some number
    [k] of half-frame steps between 0 and [level - 1]; in particular it is
    never below 7. *)
Theorem tick_rate_shape s :
  reachable s ->
  1 <= level s /\
  exists k, 0 <= k <= level s - 1 /\
    (FPS s == inject_Z (if powerup_active s then 10 else 7) + (k # 2))%Q.
Proof.
  revert s. apply reachable_invariant;
    try (intros ? ? HP; exact HP); try (intros ? HP ?; exact HP).
  - intros fuel hs so g s g' H.
    destruct (init_food _ _ _ _ _ _ H) as (_ & _ & _ & _ & _ & -> & -> & _).
    apply init_fields in H. destruct H as (_ & _ & -> & _).
    split; [lia|]. exists 0. split; [lia | reflexivity].
  - intros fuel env g s s' g' (Hl & k & Hk & HF) _ _ H.
    tick_shapes H; tick_fields env s;
      repeat match goal with
             | E : (_ >? _) = true |- _ => apply Z.gtb_lt in E
             | E : (_ <=? _) = _ |- _ =>
                 first [apply Z.leb_le in E | apply Z.leb_gt in E]
             end;
      try discriminate; try congruence;
      try match goal with
          | Hpa : powerup_active s = _ |- _ => rewrite Hpa in HF
          end;
      (split; [lia|]);
      first [ exists k; split; [lia | exact HF]
            | exists 0; split; [lia | reflexivity]
            | exists (k + 1); split; [lia | apply half_step; exact HF]
            | exists 1; split; [lia | reflexivity] ].
  - intros fuel g s s' g' _ _ _ H. apply restart_fields in H.
    destruct H as (_ & _ & _ & _ & _ & -> & _ & -> & -> & _).
    split; [lia|]. exists 0. split; [lia | reflexivity].
Qed.

Lemma tick_rate_shape_witness :
  reachable level_two /\ FPS level_two = (15 # 2)%Q /\
  1 <= level level_two /\
  exists k, 0 <= k <= level level_two - 1 /\
    (FPS level_two ==
     inject_Z (if powerup_active level_two then 10 else 7) + (k # 2))%Q.
Proof.
  split; [exact level_two_reachable|]. split; [reflexivity|].
  exact (tick_rate_shape level_two level_two_reachable).
Defined.

(** ** The loop driver: pause, game over, menu, high score *)

Lemma tick_misc fuel env s g s' g' :
  tick fuel env s g = Ok s' g' ->
  paused s' = paused (snd (get_direction env s)) /\
  show_grid s' = show_grid s /\ waiting s' = waiting s /\ ser s' = ser s.
Proof.
  intros H. tick_shapes H; tick_fields env s; auto.
Qed.

Lemma tick_high_score fuel env s g s' g' :
  tick fuel env s g = Ok s' g' ->
  high_score s' = if eats_food env s
                  then Z.max (high_score s) (score s + 1)
                  else high_score s.
Proof.
  intros H. unfold eats_food.
  tick_shapes H; rewrite Hhead; try rewrite Heat;
    tick_fields env s;
    repeat match goal with
           | E : (_ >? _) = true |- _ => apply Z.gtb_lt in E
           | E : (_ >? _) = false |- _ =>
               let N := fresh "N" in
               assert (N : ~ (_ < _))
                 by (rewrite <- Z.gtb_lt; rewrite E; discriminate);
               clear E
           end; try reflexivity; lia.
Qed.

Lemma handle_events_light evs :
  forall s s0,
    handle_events evs s = Some s0 ->
    s0 = set_show_grid (show_grid s0) (set_paused (paused s0) s).
Proof.
  induction evs as [|e evs IH]; intros s s0 H; simpl in H.
  - inversion H; subst. apply state_eta.
  - destruct e as [|k|]; [discriminate| |exact (IH _ _ H)].
    apply IH in H. rewrite H. destruct k; reflexivity.
Qed.

(** What one iteration of the main loop is made of. *)
Lemma frame_decompose fuel env s g s' g' :
  frame fuel env s g = Ok (Running s') g' ->
  exists s0,
    handle_events (events env) s = Some s0 /\
    ((paused s0 = true /\ s' = s0 /\ g' = g) \/
     (paused s0 = false /\
      exists s1 g1,
        ((game_over s0 = true /\ s1 = s0 /\ g1 = g) \/
         (game_over s0 = false /\ tick fuel env s0 g = Ok s1 g1)) /\
        ((game_over s1 = true /\ keys env K_r = true /\
          restart fuel s1 g1 = Ok s' g') \/
         (game_over s1 && keys env K_r = false /\ s' = s1 /\ g' = g1)))).
Proof.
  unfold frame. intros H.
  destruct (handle_events (events env) s) as [s0|]; [|discriminate].
  exists s0. split; [reflexivity|].
  destruct (paused s0).
  - inversion H; subst. left. auto.
  - right. split; [reflexivity|].
    apply bind_Ok in H. destruct H as (s1 & g1 & Ht & H).
    apply bind_Ok in H. destruct H as (s2 & g2 & Hre & H).
    inversion H; subst s2 g2; clear H.
    exists s1, g1. split.
    + destruct (game_over s0); simpl in Ht.
      * inversion Ht; subst. left. auto.
      * right. auto.
    + destruct (game_over s1 && keys env K_r) eqn:E.
      * apply andb_true_iff in E. left. tauto.
      * inversion Hre; subst. right. auto.
Qed.

(** X12: the high score bounds the score of every reachable state (as soon
    as the stored value is not negative) and no loop iteration ever lowers
    it: a tick raises it to the new score when that is larger, a restart
    keeps it. *)
Theorem high_score_never_decreases s :
  reachable s ->
  score s <= Z.max 0 (high_score s) /\
  forall fuel env g s' g',
    step fuel env s g = Ok (Running s') g' -> high_score s <= high_score s'.
Proof.
  intros Hr. split.
  - revert s Hr.
    apply reachable_invariant; try (intros; assumption).
    + intros fuel hs so g s g' H. apply init_fields in H.
      destruct H as (_ & -> & _). lia.
    + intros fuel env g s s' g' IH _ _ H.
      pose proof (tick_high_score _ _ _ _ _ _ H) as Hh.
      apply tick_summary in H. destruct H as (_ & H).
      unfold eats_food in Hh.
      destruct (tick_new_head env s) as [nh|].
      * destruct H as (_ & -> & _). rewrite Hh.
        destruct (pos_eqb nh (food_pos s)); lia.
      * destruct H as (_ & -> & _). rewrite Hh. exact IH.
    + intros fuel g s s' g' _ _ _ H. apply restart_fields in H.
      destruct H as (_ & _ & _ & -> & _). lia.
  - intros fuel env g s' g' H. unfold step in H.
    destruct (waiting s).
    + inversion H as [H1]. apply menu_iteration_fields in H1.
      destruct H1 as (_ & _ & _ & _ & _ & ->). lia.
    + apply frame_decompose in H.
      destruct H as (s0 & Hev & H).
      apply handle_events_fields in Hev.
      destruct Hev as (_ & _ & _ & _ & _ & Ehs & _).
      destruct H as [(_ & -> & _) | (_ & s1 & g1 & Ht & Hre)]; [lia|].
      assert (H1 : high_score s0 <= high_score s1).
      { destruct Ht as [(_ & -> & _) | (_ & Ht)]; [lia|].
        apply tick_high_score in Ht. rewrite Ht.
        destruct (eats_food env s0); lia. }
      destruct Hre as [(_ & _ & Hre) | (_ & -> & _)]; [|lia].
      apply restart_fields in Hre.
      destruct Hre as (_ & _ & _ & _ & _ & _ & _ & _ & _ & -> & _). lia.
Qed.

Lemma high_score_never_decreases_witness :
  reachable level_two /\ score level_two = 10 /\ high_score level_two = 10 /\
  score level_two <= Z.max 0 (high_score level_two).
Proof.
  split; [exact level_two_reachable|]. split; [reflexivity|].
  split; [reflexivity|].
  exact (proj1 (high_score_never_decreases level_two level_two_reachable)).
Defined.

(** X13: once the run is over nothing moves: an iteration of the main loop
    either leaves every variable but [paused] and [show_grid] as it was and
    draws no random number, or R is held and it restarts the run, with the
    snake at the centre, score 0, level 1 and the same high score. *)
Theorem game_over_is_left_only_by_restart fuel env s g s' g' :
  game_over s = true ->
  frame fuel env s g = Ok (Running s') g' ->
  (game_over s' = true /\ g' = g /\
   s' = set_show_grid (show_grid s') (set_paused (paused s') s))
  \/
  (game_over s' = false /\ keys env K_r = true /\
   snake s' = [(400, 300)] /\ score s' = 0 /\ level s' = 1 /\
   obstacles s' = [] /\ powerup_active s' = false /\
   high_score s' = high_score s).
Proof.
  intros Hgo H. apply frame_decompose in H.
  destruct H as (s0 & Hev & H).
  pose proof (handle_events_light _ _ _ Hev) as Hl.
  apply handle_events_fields in Hev.
  destruct Hev as (_ & _ & _ & _ & Ego & Ehs & _).
  rewrite Hgo in Ego.
  destruct H as [(_ & -> & ->) | (_ & s1 & g1 & Ht & Hre)]; [left; auto|].
  destruct Ht as [(_ & -> & ->) | (Hn & _)]; [|congruence].
  destruct Hre as [(_ & Hr & Hre) | (_ & -> & ->)]; [|left; auto].
  right. apply restart_fields in Hre.
  destruct Hre as (-> & _ & _ & -> & -> & -> & -> & -> & _ & -> & _).
  repeat split; auto.
Qed.

Lemma game_over_is_left_only_by_restart_witness :
  game_over wall_after = true /\
  frame 0 (holding K_other) wall_after stuck_rng
    = Ok (Running wall_after) stuck_rng /\
  ((game_over wall_after = true /\ stuck_rng = stuck_rng /\
    wall_after = set_show_grid (show_grid wall_after)
                   (set_paused (paused wall_after) wall_after))
   \/
   (game_over wall_after = false /\ keys (holding K_other) K_r = true /\
    snake wall_after = [(400, 300)] /\ score wall_after = 0 /\
    level wall_after = 1 /\ obstacles wall_after = [] /\
    powerup_active wall_after = false /\
    high_score wall_after = high_score wall_after)).
Proof.
  split; [reflexivity|]. split; [reflexivity|].
  exact (game_over_is_left_only_by_restart 0 (holding K_other) wall_after
           stuck_rng wall_after stuck_rng eq_refl eq_refl).
Defined.

(** X14: with the keyboard as input source, an iteration of the main loop
    during which P is held while the run is not over always ends paused:
    when it starts unpaused, or is unpaused by a key-down event, the tick
    runs once and its poll of the key pauses the game again. *)
Theorem frame_with_P_held_ends_paused fuel env s g s' g' :
  ser s = false -> keys env K_p = true -> game_over s = false ->
  frame fuel env s g = Ok (Running s') g' ->
  paused s' = true.
Proof.
  intros Hser Hp Hgo H. apply frame_decompose in H.
  destruct H as (s0 & Hev & H).
  pose proof (handle_events_light _ _ _ Hev) as Hl.
  apply handle_events_fields in Hev.
  destruct Hev as (_ & _ & _ & _ & Ego & _).
  destruct H as [(Hpa & -> & _) | (Hpa & s1 & g1 & Ht & Hre)]; [exact Hpa|].
  destruct Ht as [(Hg & _) | (_ & Ht)]; [congruence|].
  apply tick_misc in Ht. destruct Ht as (Ep & _).
  assert (Hser0 : ser s0 = false) by (rewrite Hl; exact Hser).
  unfold get_direction in Ep. rewrite Hser0, Hp in Ep. simpl in Ep.
  rewrite Hpa in Ep.
  destruct Hre as [(_ & _ & Hre) | (_ & -> & _)]; [|exact Ep].
  apply restart_fields in Hre.
  destruct Hre as (_ & _ & _ & _ & _ & _ & _ & _ & _ & _ & -> & _). exact Ep.
Qed.

Lemma frame_with_P_held_ends_paused_witness :
  ser overlap_before = false /\ paused overlap_before = false /\
  exists s',
    frame 0 (mkEnv [KEYDOWN K_p; KEYDOWN K_p] (key_eqb K_p) DecodeError)
          overlap_before zero_rng = Ok (Running s') zero_rng /\
    snake s' <> snake overlap_before /\ paused s' = true.
Proof.
  split; [reflexivity|]. split; [reflexivity|].
  eexists. split; [reflexivity|]. split; [discriminate|].
  exact (frame_with_P_held_ends_paused 0
           (mkEnv [KEYDOWN K_p; KEYDOWN K_p] (key_eqb K_p) DecodeError)
           overlap_before zero_rng _ zero_rng eq_refl eq_refl eq_refl eq_refl).
Defined.

Lemma handle_events_without_P evs :
  forall s,
    ~ In (KEYDOWN K_p) evs -> ~ In QUIT evs ->
    exists b, handle_events evs s = Some (set_show_grid b s).
Proof.
  induction evs as [|e evs IH]; intros s Hp Hq; simpl.
  - exists (show_grid s). f_equal. apply state_eta.
  - assert (Hp' : ~ In (KEYDOWN K_p) evs) by (intros F; apply Hp; right; exact F).
    assert (Hq' : ~ In QUIT evs) by (intros F; apply Hq; right; exact F).
    destruct e as [|k|].
    + exfalso. apply Hq. left. reflexivity.
    + destruct k;
        try (destruct (IH s Hp' Hq') as [b E]; exists b; exact E).
      * exfalso. apply Hp. left. reflexivity.
      * destruct (IH (set_show_grid (negb (show_grid s)) s) Hp' Hq') as [b E].
        exists b. rewrite E. reflexivity.
    + destruct (IH s Hp' Hq') as [b E]. exists b. exact E.
Qed.

(** X15: a paused game is resumed by nothing but a key-down event of P:
    an iteration of the main loop that starts paused and receives no such
    event (and no quit) returns the same state, up to the grid toggle, and
    draws no random number, whatever the serial line carries (the joystick
    button included) and whatever keys are held (R on the game-over screen
    included). *)
Theorem paused_game_needs_P_event fuel env s g :
  paused s = true ->
  ~ In (KEYDOWN K_p) (events env) -> ~ In QUIT (events env) ->
  exists b, frame fuel env s g = Ok (Running (set_show_grid b s)) g.
Proof.
  intros Hpa Hp Hq.
  destruct (handle_events_without_P (events env) s Hp Hq) as [b E].
  exists b. unfold frame. rewrite E. simpl. rewrite Hpa. reflexivity.
Qed.

Lemma paused_game_needs_P_event_witness :
  paused (set_paused true joystick_state) = true /\
  exists b,
    frame 0 (mkEnv [KEYDOWN K_g; OTHER_EVENT] (key_eqb K_r)
               (Text ("512,512,0" ++ LF)))
          (set_paused true joystick_state) stuck_rng
    = Ok (Running (set_show_grid b (set_paused true joystick_state)))
         stuck_rng.
Proof.
  split; [reflexivity|].
  apply (paused_game_needs_P_event 0
           (mkEnv [KEYDOWN K_g; OTHER_EVENT] (key_eqb K_r)
              (Text ("512,512,0" ++ LF)))
           (set_paused true joystick_state) stuck_rng); simpl.
  - reflexivity.
  - intros [H|[H|[]]]; discriminate.
  - intros [H|[H|[]]]; discriminate.
Defined.

(** X16: as long as the menu is shown the game is in its start position
    (one cell at the centre, no direction, score 0, level 1, no obstacle,
    not over); and once the menu has been left it is never shown again. *)
Theorem menu_shows_a_fresh_game s :
  reachable s ->
  (waiting s = true ->
   snake s = [(400, 300)] /\ direction s = (0, 0) /\ score s = 0 /\
   level s = 1 /\ obstacles s = [] /\ game_over s = false /\
   powerup_active s = false) /\
  (waiting s = false ->
   forall fuel env g s' g',
     step fuel env s g = Ok (Running s') g' -> waiting s' = false).
Proof.
  intros Hr. split.
  - revert s Hr.
    apply (reachable_invariant
             (fun s => waiting s = true ->
                snake s = [(400, 300)] /\ direction s = (0, 0) /\
                score s = 0 /\ level s = 1 /\ obstacles s = [] /\
                game_over s = false /\ powerup_active s = false));
      try (intros ? ? HP; exact HP).
    + intros fuel hs so g s g' H _.
      destruct (init_food _ _ _ _ _ _ H) as (_ & _ & _ & -> & _ & -> & _).
      apply init_fields in H.
      destruct H as (-> & -> & -> & -> & -> & _). auto 10.
    + intros s _ _ F. discriminate.
    + intros fuel env g s s' g' _ Hw _ H F.
      apply tick_misc in H. destruct H as (_ & _ & E & _). congruence.
    + intros fuel g s s' g' _ Hw _ H F.
      apply restart_food in H. destruct H as (_ & _ & E & _). congruence.
  - intros Hw fuel env g s' g' H. unfold step in H. rewrite Hw in H.
    apply frame_decompose in H. destruct H as (s0 & Hev & H).
    apply handle_events_fields in Hev.
    destruct Hev as (_ & _ & _ & _ & _ & _ & Ew).
    rewrite Hw in Ew.
    destruct H as [(_ & -> & _) | (_ & s1 & g1 & Ht & Hre)]; [exact Ew|].
    assert (W1 : waiting s1 = false).
    { destruct Ht as [(_ & -> & _) | (_ & Ht)]; [exact Ew|].
      apply tick_misc in Ht. destruct Ht as (_ & _ & E & _). congruence. }
    destruct Hre as [(_ & _ & Hre) | (_ & -> & _)]; [|exact W1].
    apply restart_food in Hre. destruct Hre as (_ & _ & E & _). congruence.
Qed.

Lemma menu_state_reachable : reachable menu_state.
Proof. apply (reach_init 1 0 false zero_rng menu_state (advance (advance zero_rng))). reflexivity. Qed.

Lemma menu_shows_a_fresh_game_witness :
  reachable menu_state /\ waiting menu_state = true /\
  snake menu_state = [(400, 300)] /\ direction menu_state = (0, 0) /\
  score menu_state = 0 /\ level menu_state = 1 /\ obstacles menu_state = [] /\
  game_over menu_state = false /\ powerup_active menu_state = false.
Proof.
  split; [exact menu_state_reachable|]. split; [reflexivity|].
  exact (proj1 (menu_shows_a_fresh_game menu_state menu_state_reachable)
           eq_refl).
Defined.

(** ** Decimal text: [str] and [int] *)

Example py_str_values :
  py_str 0 = "0"%string /\ py_str 7 = "7"%string /\
  py_str 10 = "10"%string /\ py_str 1023 = "1023"%string /\
  py_str (-45) = "-45"%string /\ py_str 4300 = "4300"%string.
Proof. repeat split; reflexivity. Qed.















(** ** The high-score file *)



(** ** The text of a joystick frame *)














(** ** Particles *)

Example update_particles_twins :
  update_particles [((0, 0), (1, 1), 1); ((5, 5), (0, 0), 3);
                    ((0, 0), (1, 1), 1); ((7, 7), (-1, 0), 2)]
  = Some [((5, 5), (0, 0), 2); ((6, 7), (-1, 0), 1)].
Proof. reflexivity. Qed.

Lemma particle_eqb_life p q :
  life p <> life q -> particle_eqb p q = false.
Proof.
  unfold particle_eqb, life. intros H.
  apply Z.eqb_neq in H. rewrite H. apply andb_false_r.
Qed.

Lemma list_remove_first st i pre rest :
  (forall r, In r pre -> r <> i /\ particle_eqb (st r) (st i) = false) ->
  list_remove st i (pre ++ i :: rest) = Some (pre ++ rest).
Proof.
  induction pre as [|r pre IH]; intros H; simpl.
  - rewrite Nat.eqb_refl. reflexivity.
  - destruct (H r (or_introl eq_refl)) as [Hne Heq].
    apply Nat.eqb_neq in Hne. rewrite Hne, Heq. simpl.
    rewrite IH; [reflexivity|]. intros r' Hr'. apply H. right. exact Hr'.
Qed.

Lemma map_nth_seq (l : list Particle) :
  map (fun j => nth j l no_particle) (seq 0 (List.length l)) = l.
Proof.
  apply (nth_ext _ _ no_particle no_particle).
  - rewrite length_map, length_seq. reflexivity.
  - intros n Hn. rewrite length_map, length_seq in Hn.
    rewrite (nth_indep _ no_particle (nth 0%nat l no_particle))
      by (rewrite length_map, length_seq; exact Hn).
    change (nth 0%nat l no_particle)
      with ((fun j => nth j l no_particle) 0%nat).
    rewrite map_nth. rewrite seq_nth by exact Hn. reflexivity.
Qed.

Lemma map_filter_comm {A B} (f : A -> B) (P : B -> bool) l :
  map f (filter (fun x => P (f x)) l) = filter P (map f l).
Proof.
  induction l as [|x l IH]; [reflexivity|]. simpl.
  destruct (P (f x)); simpl; rewrite IH; reflexivity.
Qed.

Lemma particle_loop_spec (ps : list Particle) :
  let surv := fun j => 0 <? life (age (nth j ps no_particle)) in
  forall k i st live,
    (i + k = List.length ps)%nat ->
    (forall j, st j = if (j <? i)%nat then age (nth j ps no_particle)
                      else nth j ps no_particle) ->
    live = filter surv (seq 0 i) ++ seq i k ->
    exists st',
      particle_loop (seq i k) st live
      = Some (st', filter surv (seq 0 (List.length ps))) /\
      forall j, (j < List.length ps)%nat ->
        st' j = age (nth j ps no_particle).
Proof.
  intros surv. induction k as [|k IH]; intros i st live Hik Hst Hlive.
  - rewrite Nat.add_0_r in Hik. subst i. simpl in *.
    rewrite app_nil_r in Hlive. subst live.
    exists st. split; [reflexivity|].
    intros j Hj. rewrite Hst.
    apply Nat.ltb_lt in Hj. rewrite Hj. reflexivity.
  - cbn [seq particle_loop].
    set (st1 := store_set i (age (st i)) st).
    assert (Hi : st1 i = age (nth i ps no_particle)).
    { unfold st1, store_set. rewrite Nat.eqb_refl, Hst, Nat.ltb_irrefl.
      reflexivity. }
    assert (Hst1 : forall j, st1 j = if (j <? S i)%nat
                                     then age (nth j ps no_particle)
                                     else nth j ps no_particle).
    { intros j. unfold st1, store_set.
      destruct (j =? i)%nat eqn:E.
      - apply Nat.eqb_eq in E. subst j.
        rewrite Hst, Nat.ltb_irrefl.
        assert (E : (i <? S i)%nat = true) by (apply Nat.ltb_lt; lia).
        rewrite E. reflexivity.
      - apply Nat.eqb_neq in E. rewrite Hst.
        destruct (j <? i)%nat eqn:E1.
        + apply Nat.ltb_lt in E1.
          assert (E2 : (j <? S i)%nat = true) by (apply Nat.ltb_lt; lia).
          rewrite E2. reflexivity.
        + apply Nat.ltb_ge in E1.
          assert (E2 : (j <? S i)%nat = false) by (apply Nat.ltb_ge; lia).
          rewrite E2. reflexivity. }
    assert (Hseq : filter surv (seq 0 (S i))
                   = filter surv (seq 0 i) ++ (if surv i then [i] else [])).
    { rewrite seq_S, filter_app. simpl. destruct (surv i); reflexivity. }
    destruct (life (st1 i) <=? 0) eqn:El.
    + apply Z.leb_le in El.
      assert (Hs : surv i = false).
      { unfold surv. rewrite <- Hi. apply Z.ltb_ge. exact El. }
      rewrite Hlive. cbn [seq].
      rewrite list_remove_first.
      * apply (IH (S i) st1); [lia | exact Hst1|].
        rewrite Hseq, Hs, app_nil_r. reflexivity.
      * intros r Hr. apply filter_In in Hr. destruct Hr as [Hr Hsr].
        apply in_seq in Hr. split; [lia|].
        apply particle_eqb_life.
        assert (Er : st1 r = age (nth r ps no_particle)).
        { rewrite Hst1.
          assert (E : (r <? S i)%nat = true) by (apply Nat.ltb_lt; lia).
          rewrite E. reflexivity. }
        rewrite Er. unfold surv in Hsr. apply Z.ltb_lt in Hsr. lia.
    + apply Z.leb_gt in El.
      assert (Hs : surv i = true).
      { unfold surv. rewrite <- Hi. apply Z.ltb_lt. exact El. }
      apply (IH (S i) st1); [lia | exact Hst1|].
      rewrite Hlive, Hseq, Hs, <- app_assoc. reflexivity.
Qed.

Lemma update_particles_filter ps :
  update_particles ps = Some (filter (fun p => 0 <? life p) (map age ps)).
Proof.
  unfold update_particles.
  destruct (particle_loop_spec ps (List.length ps) 0
              (fun j => nth j ps no_particle) (seq 0 (List.length ps)))
    as (st' & Hloop & Hst'); [lia | intros j; reflexivity | reflexivity |].
  rewrite Hloop. f_equal.
  rewrite (map_ext_in st' (fun j => age (nth j ps no_particle))).
  - rewrite (map_filter_comm (fun j => age (nth j ps no_particle))
               (fun p => 0 <? life p)).
    rewrite <- (map_map (fun j => nth j ps no_particle) age), map_nth_seq.
    reflexivity.
  - intros j Hj. apply filter_In in Hj. destruct Hj as [Hj _].
    apply in_seq in Hj. apply Hst'. lia.
Qed.

(** X20: the rendering pass over the particles ages every particle once,
    removes exactly those whose life has run out and keeps the others in
    order: [particles.remove(p)] never removes another, equal-looking
    particle than [p] and never raises [ValueError], duplicates or not. *)
Theorem particle_pass_removes_the_dead particles :
  update_particles particles
  = Some (filter (fun p => 0 <? life p) (map age particles)).
Proof. apply update_particles_filter. Qed.

Lemma life_age p : life (age p) = life p - 1.
Proof. destruct p as [[pos vel] l]. reflexivity. Qed.

Lemma render_passes_empty k :
  forall ps,
    Forall (fun p => 0 < life p <= Z.of_nat k) ps ->
    render_passes k ps = Some [].
Proof.
  induction k as [|k IH]; intros ps H.
  - destruct ps as [|p ps]; [reflexivity|].
    inversion H; subst. simpl in *. lia.
  - cbn [render_passes]. rewrite update_particles_filter. apply IH.
    rewrite Forall_forall in *. intros p Hp.
    apply filter_In in Hp. destruct Hp as [Hp Hl].
    apply in_map_iff in Hp. destruct Hp as (q & <- & Hq).
    apply Z.ltb_lt in Hl. specialize (H q Hq).
    rewrite life_age in *. lia.
Qed.

Lemma render_passes_alive k :
  forall ps,
    Forall (fun p => Z.of_nat k < life p) ps ->
    exists ps', render_passes k ps = Some ps' /\
      List.length ps' = List.length ps.
Proof.
  induction k as [|k IH]; intros ps H.
  - exists ps. split; reflexivity.
  - cbn [render_passes]. rewrite update_particles_filter.
    assert (E : filter (fun p => 0 <? life p) (map age ps) = map age ps).
    { apply forallb_filter_id. apply forallb_forall. intros p Hp.
      apply in_map_iff in Hp. destruct Hp as (q & <- & Hq).
      rewrite Forall_forall in H. specialize (H q Hq).
      apply Z.ltb_lt. rewrite life_age. lia. }
    rewrite E.
    destruct (IH (map age ps)) as (ps' & Hr & Hl).
    + rewrite Forall_forall in *. intros p Hp.
      apply in_map_iff in Hp. destruct Hp as (q & <- & Hq).
      specialize (H q Hq). rewrite life_age. lia.
    + exists ps'. split; [exact Hr|]. rewrite Hl, length_map. reflexivity.
Qed.

Lemma spawn_particle_list_spec n centre :
  forall ps g,
    exists new g',
      spawn_particle_list n centre ps g = Ok (ps ++ new) g' /\
      spawn_particles n g = Ok tt g' /\
      List.length new = n /\
      Forall (fun p => fst (fst p) = centre /\
                       -5 <= fst (snd (fst p)) <= 5 /\
                       -5 <= snd (snd (fst p)) <= 5 /\
                       10 <= life p <= 20) new.
Proof.
  induction n as [|n IH]; intros ps g.
  - exists [], g. rewrite app_nil_r. repeat split; constructor.
  - cbn [spawn_particle_list spawn_particles]. unfold bind, randint.
    set (p := (centre,
               (-5 + g 0%nat mod (5 - -5 + 1),
                -5 + advance g 0%nat mod (5 - -5 + 1)),
               10 + advance (advance g) 0%nat mod (20 - 10 + 1))).
    destruct (IH (ps ++ [p]) (advance (advance (advance g))))
      as (new & g' & Hrun & Hdraw & Hlen & Hall).
    exists (p :: new), g'.
    split; [rewrite Hrun, <- app_assoc; reflexivity|].
    split; [exact Hdraw|]. split; [simpl; congruence|].
    constructor; [|exact Hall].
    unfold p, life, advance. cbn [fst snd].
    change (5 - -5 + 1) with 11. change (20 - 10 + 1) with 11.
    pose proof (Z.mod_pos_bound (g 0%nat) 11 ltac:(lia)).
    pose proof (Z.mod_pos_bound (g 1%nat) 11 ltac:(lia)).
    pose proof (Z.mod_pos_bound (g 2%nat) 11 ltac:(lia)).
    repeat split; lia.
Qed.

(** X21: the burst of an eaten orb is twenty particles at the centre of
    the orb, with velocities in [-5..5] and lives in [10..20], drawn from the
    generator exactly as the tick draws; all twenty survive nine rendering
    passes and none is left after twenty. *)
Theorem particle_burst_lifetime centre g :
  exists burst g',
    spawn_particle_list 20 centre [] g = Ok burst g' /\
    spawn_particles 20 g = Ok tt g' /\
    List.length burst = 20%nat /\
    Forall (fun p => fst (fst p) = centre /\
                     -5 <= fst (snd (fst p)) <= 5 /\
                     -5 <= snd (snd (fst p)) <= 5 /\
                     10 <= life p <= 20) burst /\
    (exists alive, render_passes 9 burst = Some alive /\
       List.length alive = 20%nat) /\
    render_passes 20 burst = Some [].
Proof.
  destruct (spawn_particle_list_spec 20 centre [] g)
    as (burst & g' & Hrun & Hdraw & Hlen & Hall).
  exists burst, g'. simpl in Hrun.
  split; [exact Hrun|]. split; [exact Hdraw|]. split; [exact Hlen|].
  split; [exact Hall|]. split.
  - destruct (render_passes_alive 9 burst) as (alive & Hr & Hl).
    + rewrite Forall_forall in *. intros p Hp.
      destruct (Hall p Hp) as (_ & _ & _ & Hlife). simpl. lia.
    + exists alive. split; [exact Hr | congruence].
  - apply render_passes_empty.
    rewrite Forall_forall in *. intros p Hp.
    destruct (Hall p Hp) as (_ & _ & _ & Hlife). simpl. lia.
Qed.

(** ** Drawing *)

(** X22: every segment of the snake is drawn with the same radius, half a
    cell: for an index inside the snake the taper term of line 290 is
    zero. *)
Theorem segment_radius_is_constant i n :
  0 <= i < n -> segment_radius i n = 10.
Proof.
  intros H. unfold segment_radius, CELL_SIZE.
  rewrite (Z.div_small i n H). reflexivity.
Qed.

Lemma segment_radius_is_constant_witness :
  0 <= 4 < 5 /\ segment_radius 4 5 = 10.
Proof.
  split; [lia|]. apply (segment_radius_is_constant 4 5). lia.
Defined.
